(** * myTV playlist generator: a shallow embedding of
      [scripts/generate_playlist.py] and the properties of its
      fetch / merge / enrich / dispatch pipeline.

    Text is a Python [str]: a sequence of Unicode code points.  Sets and
    dictionaries are stdpp's [gset] and [gmap].  Every remote call is an
    input of the model ([None] when the call raises), every [print] and
    file write is an event of the run's trace.  The file system and the
    console are taken to work: the output directory can be created, the two
    files opened and filled, every line printed.  What depends on the data
    is modelled: the playlist is written
    as UTF-8, which raises on a text that holds a surrogate code point, and
    nothing catches that exception.  [str.upper], [gzip.compress] and the
    decoding that requests applies to a response body under its
    Content-Encoding are library functions and stay parameters of the
    script. *)

From Stdlib Require Import ZArith NArith Strings.String Strings.Ascii Strings.Byte.
From Equations Require Import Equations.
From stdpp Require Import base gmap sets list fin_maps.

Local Open Scope N_scope.

(** ** Python text *)

Module Py.

(** A code point. *)
Definition char := N.

(** A [str]. *)
Definition str := list char.

(** A literal of the source, written as a Rocq string of ASCII characters. *)
Fixpoint lit (s : string) : str :=
  match s with
  | EmptyString => []
  | String a r => N_of_ascii a :: lit r
  end.

Definition quote : char := 34.     (* the double quote *)
Definition comma : char := 44.
Definition semicolon : char := 59.
Definition newline : char := 10.   (* the line feed *)
Definition hash : char := 35.      (* the number sign *)

(** [str.isspace] on one code point: the table of CPython's
    [_PyUnicode_IsWhitespace]. *)
Definition isspace (c : char) : bool :=
  ((9 <=? c) && (c <=? 13)) || ((28 <=? c) && (c <=? 32))
  || (c =? 133) || (c =? 160) || (c =? 5760)
  || ((8192 <=? c) && (c <=? 8202))
  || (c =? 8232) || (c =? 8233) || (c =? 8239) || (c =? 8287) || (c =? 12288).

(** [s.lstrip(...)], [s.rstrip(...)] and [s.strip(...)] for the characters
    selected by [p]. *)
Fixpoint lstrip_by (p : char -> bool) (s : str) : str :=
  match s with
  | [] => []
  | c :: t => if p c then lstrip_by p t else s
  end.

Definition rstrip_by (p : char -> bool) (s : str) : str :=
  rev (lstrip_by p (rev s)).

Definition strip_by (p : char -> bool) (s : str) : str :=
  rstrip_by p (lstrip_by p s).

(** [s.strip()] *)
Definition strip (s : str) : str := strip_by isspace s.

(** [s.strip(q)] where [q] is the double quote. *)
Definition strip_quotes (s : str) : str := strip_by (N.eqb quote) s.

(** [s.split(sep)] for a one-character separator: never the empty list. *)
Fixpoint split (sep : char) (s : str) : list str :=
  match s with
  | [] => [[]]
  | c :: t =>
      if c =? sep then [] :: split sep t
      else match split sep t with
           | [] => [[c]]
           | f :: fs => (c :: f) :: fs
           end
  end.

(** [s.startswith(p)], returning what follows the prefix. *)
Fixpoint strip_prefix (p s : str) : option str :=
  match p, s with
  | [], _ => Some s
  | _ :: _, [] => None
  | a :: p', c :: s' => if a =? c then strip_prefix p' s' else None
  end.

(** [p in s] for strings. *)
Fixpoint contains (p s : str) : bool :=
  match strip_prefix p s with
  | Some _ => true
  | None => match s with
            | [] => false
            | _ :: t => contains p t
            end
  end.

(** A surrogate code point, D800 to DFFF: a [str] can hold one (a lenient
    decoder or the environment hands them out), UTF-8 cannot encode it. *)
Definition surrogate (c : char) : bool := (55296 <=? c) && (c <=? 57343).

(** [s.encode(utf-8)] returns, rather than raising [UnicodeEncodeError]:
    every code point of a [str] other than a surrogate has an encoding. *)
Definition utf8_encodable (s : str) : bool := forallb (fun c => negb (surrogate c)) s.

(** A value is a strict suffix of the text it was cut from. *)
Lemma strip_prefix_length p s r :
  strip_prefix p s = Some r -> (length r + length p = length s)%nat.
Proof.
  revert s; induction p as [|a p IH]; intros [|c s] H; simpl in *; simplify_eq; auto.
  destruct (a =? c); [|done]. apply IH in H. lia.
Qed.

(** Remembers the equation of a scrutinee for a termination proof. *)
Definition inspect {A} (a : A) : {b | a = b} := exist _ a eq_refl.

(** [s.replace(p, e)] with [e] the empty string, for a non-empty [p]: the
    occurrences of [p] are found from the left, without overlap, and
    deleted. *)
Equations? remove_all (p s : str) : str by wf (length s) lt :=
  remove_all p [] := [];
  remove_all p (c :: t) with inspect (strip_prefix p (c :: t)) := {
    | exist _ (Some r) E with p := {
        | [] => c :: remove_all p t
        | _ :: _ => remove_all p r };
    | exist _ None _ => c :: remove_all p t }.
Proof.
  all: try (simpl; lia).
  apply strip_prefix_length in E. simpl in *. lia.
Qed.

(** [len(re.findall(p, s))] for a literal, non-empty pattern [p]. *)
Equations? count_all (p s : str) : nat by wf (length s) lt :=
  count_all p [] := 0%nat;
  count_all p (c :: t) with inspect (strip_prefix p (c :: t)) := {
    | exist _ (Some r) E with p := {
        | [] => count_all p t
        | _ :: _ => S (count_all p r) };
    | exist _ None _ => count_all p t }.
Proof.
  all: try (simpl; lia).
  apply strip_prefix_length in E. simpl in *. lia.
Qed.

(** The literal head of the identifier pattern: [tvg-id=] and the opening
    quote. *)
Definition tvg_prefix : str := lit "tvg-id=" ++ [quote].

(** The longest prefix without a double quote, and what follows it. *)
Fixpoint span_unquoted (s : str) : str * str :=
  match s with
  | [] => ([], [])
  | c :: t => if c =? quote then ([], s)
              else let '(v, r) := span_unquoted t in (c :: v, r)
  end.

(** The pattern [tvg-id=Q([^Q]+)Q], [Q] being the double quote, tried at
    the start of [s]: the literal prefix, then the longest run of characters
    other than the quote, which must be non-empty and closed by a quote.
    (A shorter run is followed by a character of the run, never by the
    quote, so backtracking finds nothing more.)  Returns group 1 and the
    text after the match. *)
Definition match_tvg (s : str) : option (str * str) :=
  match strip_prefix tvg_prefix s with
  | None => None
  | Some r =>
      match span_unquoted r with
      | ((_ :: _) as v, _ :: rest) => Some (v, rest)
      | _ => None
      end
  end.

Lemma span_unquoted_length s v r :
  span_unquoted s = (v, r) -> (length v + length r = length s)%nat.
Proof.
  revert v r; induction s as [|c s IH]; intros v r H; simpl in *; simplify_eq; auto.
  destruct (c =? quote); simplify_eq; auto.
  destruct (span_unquoted s) as [v' r']; simplify_eq. simpl. by rewrite (IH v' r).
Qed.

Lemma match_tvg_length s v r :
  match_tvg s = Some (v, r) -> (length r < length s)%nat.
Proof.
  unfold match_tvg. destruct (strip_prefix tvg_prefix s) as [r0|] eqn:E; [|done].
  destruct (span_unquoted r0) as [[|c v'] [|q rest]] eqn:E2; intros; simplify_eq.
  apply strip_prefix_length in E. apply span_unquoted_length in E2. simpl in *. lia.
Qed.

(** [[m.group(1) for m in re.finditer(PATTERN, s)]]: the matches are found
    from the left and do not overlap; after a match the search resumes
    where the match ended, otherwise one character further. *)
Equations? finditer_tvg (s : str) : list str by wf (length s) lt :=
  finditer_tvg [] := [];
  finditer_tvg (c :: t) with inspect (match_tvg (c :: t)) := {
    | exist _ (Some (v, r)) E => v :: finditer_tvg r;
    | exist _ None _ => finditer_tvg t }.
Proof.
  - apply match_tvg_length in E. simpl in *. lia.
  - simpl. lia.
Qed.

(** The look-ahead [(?=(?:[^Q]*Q[^Q]*Q)*[^Q]*$)] of the registry's split
    pattern, [Q] being the double quote: the text up to the end of the line
    is a sequence of quoted pairs followed by a run without quotes. *)
Definition unquoted (u : str) : Prop := Forall (fun c => c <> quote) u.

Inductive lookahead : str -> Prop :=
| lookahead_end u : unquoted u -> lookahead u
| lookahead_pair u v s :
    unquoted u -> unquoted v -> lookahead s ->
    lookahead (u ++ quote :: v ++ quote :: s).

(** Its decision procedure: the text holds an even number of quotes. *)
Fixpoint even_quotes (s : str) : bool :=
  match s with
  | [] => true
  | c :: t => if c =? quote then negb (even_quotes t) else even_quotes t
  end.

(** [re.split(PATTERN, line)] for the pattern [,(?=...)] above: the line is
    cut at every comma whose look-ahead succeeds; the pattern has no
    capturing group, so the result holds the fields only. *)
Fixpoint re_split_csv (s : str) : list str :=
  match s with
  | [] => [[]]
  | c :: t =>
      if (c =? comma) && even_quotes t then [] :: re_split_csv t
      else match re_split_csv t with
           | [] => [[c]]
           | f :: fs => (c :: f) :: fs
           end
  end.

(** [sep.join(fields)] *)
Fixpoint join (sep : char) (fields : list str) : str :=
  match fields with
  | [] => []
  | [f] => f
  | f :: fs => f ++ sep :: join sep fs
  end.

End Py.

Import Py.

(** ** Values decoded from JSON *)

(** What [r.json()] returns.  A JSON number is an integer here (a number
    with a fraction or an exponent is a Python float and is outside the
    model); an object is a [dict] with [str] keys. *)
#[warnings="-register-all"]
Inductive json :=
| JNull
| JBool (b : bool)
| JInt (z : Z)
| JStr (s : str)
| JArr (l : list json)
| JObj (m : gmap str json).

(** [bool(v)]: what [if v:] tests. *)
Definition truthy (v : json) : bool :=
  match v with
  | JNull => false
  | JBool b => b
  | JInt z => negb (z =? 0)%Z
  | JStr s => match s with [] => false | _ => true end
  | JArr l => match l with [] => false | _ => true end
  | JObj m => negb (bool_decide (m = ∅))
  end.

(** A dictionary key.  [True] and [1] are one key, as are [False] and [0]. *)
Inductive pykey :=
| KNone
| KInt (z : Z)
| KStr (s : str).

#[global] Instance pykey_eq_dec : EqDecision pykey.
Proof. solve_decision. Defined.

#[global] Instance pykey_countable : Countable pykey.
Proof.
  refine (inj_countable'
    (fun k => match k with
              | KNone => inl ()
              | KInt z => inr (inl z)
              | KStr s => inr (inr s)
              end)
    (fun x => match x with
              | inl _ => KNone
              | inr (inl z) => KInt z
              | inr (inr s) => KStr s
              end) _).
  by intros [].
Defined.

(** [hash(v)] succeeds on everything but lists and dictionaries. *)
Definition hashable (v : json) : option pykey :=
  match v with
  | JNull => Some KNone
  | JBool b => Some (KInt (if b then 1 else 0))
  | JInt z => Some (KInt z)
  | JStr s => Some (KStr s)
  | JArr _ | JObj _ => None
  end.

(** [for ch in v]: [None] when [v] is not iterable.  A string yields its
    characters, a dictionary its keys. *)
Definition iterate (v : json) : option (list json) :=
  match v with
  | JArr l => Some l
  | JStr s => Some (map (fun c => JStr [c]) s)
  | JObj m => Some (map (fun kv => JStr kv.1) (map_to_list m))
  | JNull | JBool _ | JInt _ => None
  end.

(** ** The run's inputs and its observable trace *)

(** The payload posted to the enrichment service:
    [{channels: enriched, country: COUNTRY_CODE, lang: en}].  A channel entry
    is a [dict] whose keys are added one by one. *)
Record request := {
  req_channels : list (gmap str json);
  req_country : str;
  req_lang : str
}.

(** A response of the enrichment service as it arrives: its headers
    ([resp.headers.get(name)]) and its body, the bytes the service sent.
    [resp.content] is not this body but what requests decodes from it:
    see [resp_content]. *)
Record response := {
  resp_header : str -> option str;
  resp_body : list byte
}.

(** The remote services.  Each call returns [None] when it raises (transport
    failure, timeout, non-success status caught by [raise_for_status], or a
    body that [r.json()] cannot decode).  [post_json] gives the answer of
    the enrichment service as it arrives; decoding its body is a step of
    its own, see [resp_content]. *)
Record remote := {
  get_text : str -> option str;              (* requests.get(url).text *)
  get_json : str -> option json;             (* requests.get(url).json() *)
  post_json : str -> request -> option response
}.

(** The lines the script prints; the constructor names the format string
    and carries the values interpolated into it. *)
Inductive message :=
| MsgSourceCount (label : str) (count : nat)  (* {label}: {count} channels *)
| MsgSourceFailed (label : str)               (* WARNING: {label} failed - {e} *)
| MsgPlaylist (total unique : nat)            (* Playlist: {total} channels, {unique} unique IDs *)
| MsgChannelDb (entries : nat)                (* Channel database: {entries} entries *)
| MsgChannelDbFailed                          (* WARNING: Channel database failed - {e} *)
| MsgEpgChannels (entries : nat)              (* EPG channels list: {entries} entries *)
| MsgEpgChannelsFailed                        (* WARNING: EPG channels list failed - {e} *)
| MsgNoFetcherUrl                             (* EPG_FETCHER_URL not set - skipping *)
| MsgNoChannelIds                             (* No channel IDs found - skipping EPG *)
| MsgSending (channels matched : nat)         (* Sending {channels} channels ({matched} with full metadata) to epg-fetcher... *)
| MsgEpgSaved (kilobytes : nat)               (* EPG saved: {kilobytes} KB *)
| MsgEpgFailed                                (* WARNING: EPG fetch failed - {e} *)
| MsgDone.                                    (* Done. *)

(** The effects of a run, in order.  [EWriteFailed] is a [write_text] that
    opened its file, which empties it, and then raised [UnicodeEncodeError]
    before any byte was written. *)
Inductive event :=
| EGet (url : str)
| EPost (url : str) (req : request)
| EPrint (m : message)
| EWriteText (path : str) (text : str)
| EWriteFailed (path : str)
| EWriteBytes (path : str) (data : list byte).

(** ** Constants of the script *)

Definition IPTV_BASE : str := lit "https://iptv-org.github.io/iptv".

Definition SOURCES (COUNTRY_CODE : str) : list (str * str) :=
  [ (lit "country", IPTV_BASE ++ lit "/countries/" ++ COUNTRY_CODE ++ lit ".m3u");
    (lit "news",    IPTV_BASE ++ lit "/categories/news.m3u");
    (lit "movies",  IPTV_BASE ++ lit "/categories/movies.m3u");
    (lit "sports",  IPTV_BASE ++ lit "/categories/sports.m3u") ].

Definition CHANNELS_CSV_URL : str :=
  lit "https://raw.githubusercontent.com/iptv-org/database/master/data/channels.csv".

Definition EPG_CHANNELS_URL : str := lit "https://iptv-org.github.io/epg/channels.json".

Definition PLAYLIST_PATH : str := lit "docs/playlist.m3u8".
Definition EPG_PATH : str := lit "docs/epg.xml.gz".

Definition EXTM3U : str := lit "#EXTM3U".
Definition EXTINF : str := lit "#EXTINF".

Definition RULE : str := lit "# ======================================".

(** ** Dictionaries filled by a loop *)

(** One turn of a loop that stores [m[k] = v] when its body yields a key
    and a value for [x], and passes over [x] otherwise. *)
Definition store_opt `{Countable K} {A V : Type} (f : A -> option (K * V))
    (m : gmap K V) (x : A) : gmap K V :=
  match f x with
  | Some (k, v) => <[k := v]> m
  | None => m
  end.

(** ** Step 2: the channel registry *)

(** A value of [channel_db]: the dictionary with the keys [name] and [lang]. *)
Record channel := { name : str; lang : str }.

(** The body of the loop over the registry's lines: the key and the value
    stored for [line], or [None] when the line is passed over. *)
Definition parse_record (line : str) : option (str * channel) :=
  let fields := re_split_csv line in
  if (7 <=? length fields)%nat then
    let ch_id := strip_quotes (strip (fields !!! 0%nat)) in
    let name := strip_quotes (strip (fields !!! 1%nat)) in
    let lang := strip (hd [] (split semicolon (strip_quotes (strip (fields !!! 6%nat))))) in
    match ch_id with
    | [] => None
    | _ :: _ => Some (ch_id, {| name := name; lang := lang |})
    end
  else None.

(** [lines[1:]] of [r.text.strip().split(NEWLINE)] *)
Definition registry_lines (text : str) : list str :=
  drop 1 (split newline (strip text)).

Definition store_record (db : gmap str channel) (line : str) : gmap str channel :=
  match parse_record line with
  | Some (ch_id, c) => <[ch_id := c]> db
  | None => db
  end.

Definition parse_channel_db (text : str) : gmap str channel :=
  foldl store_record ∅ (registry_lines text).

(** ** Step 3: the guide-provider index *)

(** A value of [epg_channels]: the dictionary with the keys [site] and
    [site_id], holding whatever the index carried there. *)
Record site_ref := { site : json; site_id : json }.

(** The body of the loop over the index: [None] when it raises ([ch] has no
    [get], or its [xmltv_id] cannot be hashed), [Some None] when [ch] is
    passed over, else the key and the value stored. *)
Definition index_entry (ch : json) : option (option (pykey * site_ref)) :=
  match ch with
  | JObj d =>
      match d !! lit "xmltv_id" with
      | Some v =>
          if truthy v then
            match hashable v with
            | Some k =>
                Some (Some (k, {| site := default (JStr []) (d !! lit "site");
                                  site_id := default (JStr []) (d !! lit "site_id") |}))
            | None => None
            end
          else Some None
      | None => Some None
      end
  | _ => None
  end.

(** The loop: the dictionary is filled in place, so an exception leaves in
    it what was stored before; the flag tells whether the loop completed. *)
Fixpoint index_channels (chs : list json) (m : gmap pykey site_ref)
  : gmap pykey site_ref * bool :=
  match chs with
  | [] => (m, true)
  | ch :: rest =>
      match index_entry ch with
      | Some (Some (k, v)) => index_channels rest (<[k := v]> m)
      | Some None => index_channels rest m
      | None => (m, false)
      end
  end.

(** ** Step 4: one enriched channel entry *)

Definition enrich (channel_db : gmap str channel) (epg_channels : gmap pykey site_ref)
    (cid : str) : gmap str json :=
  let entry : gmap str json := {[ lit "xmltv_id" := JStr cid ]} in
  let entry :=
    match channel_db !! cid with
    | Some c => <[lit "lang" := JStr (lang c)]> (<[lit "name" := JStr (name c)]> entry)
    | None => entry
    end in
  match epg_channels !! KStr cid with
  | Some r => <[lit "site_id" := site_id r]> (<[lit "site" := site r]> entry)
  | None => entry
  end.

(** ** The script *)

(** [os.getenv] of the two variables the script reads. *)
Record environ := {
  env_COUNTRY_CODE : option str;
  env_EPG_FETCHER_URL : option str
}.

(** The state of the loop of step 1. *)
Record playlists := {
  combined : str;
  channel_ids : gset str;
  totals : gmap str nat;
  fetch_trace : list event
}.

Section Script.

(** Library functions the script calls. *)
Variable upper : str -> str.                      (* str.upper *)
Variable gzip_compress : list byte -> list byte.  (* gzip.compress *)

(** What requests makes of a response body under the value of its
    Content-Encoding header (the empty text when there is none) before it
    hands it over as [resp.content]: the decoders of urllib3.  [None]
    when the body cannot be decoded, which [requests.post] raises as an
    exception of its own. *)
Variable decode_content : str -> list byte -> option (list byte).

Variable env : environ.
Variable net : remote.

Definition COUNTRY_CODE : str := default (lit "us") (env_COUNTRY_CODE env).
Definition EPG_FETCHER_URL : str := default [] (env_EPG_FETCHER_URL env).

Definition heading (label : str) : str :=
  if bool_decide (label = lit "country")
  then lit "LOCAL - " ++ upper COUNTRY_CODE
  else upper label.

Definition banner (label : str) : str :=
  RULE ++ [newline] ++ lit "# " ++ heading label ++ [newline] ++ RULE ++ [newline].

Definition body (content : str) : str :=
  strip (remove_all EXTM3U content) ++ [newline; newline].

Definition add_id (ids : gset str) (value : str) : gset str :=
  let cid := strip value in
  match cid with
  | [] => ids
  | _ :: _ => {[ cid ]} ∪ ids
  end.

Definition add_ids (ids : gset str) (content : str) : gset str :=
  foldl add_id ids (finditer_tvg content).

(** One turn of [for label, url in SOURCES.items()]. *)
Definition fetch_source (st : playlists) (src : str * str) : playlists :=
  let '(label, url) := src in
  match get_text net url with
  | Some content =>
      let count := count_all EXTINF content in
      {| combined := (combined st ++ banner label) ++ body content;
         channel_ids := add_ids (channel_ids st) content;
         totals := <[label := count]> (totals st);
         fetch_trace := fetch_trace st ++ [EGet url; EPrint (MsgSourceCount label count)] |}
  | None =>
      {| combined := combined st;
         channel_ids := channel_ids st;
         totals := <[label := 0%nat]> (totals st);
         fetch_trace := fetch_trace st ++ [EGet url; EPrint (MsgSourceFailed label)] |}
  end.

Definition initial : playlists :=
  {| combined := EXTM3U ++ [newline; newline];
     channel_ids := ∅;
     totals := ∅;
     fetch_trace := [] |}.

Definition fetch_playlists : playlists :=
  foldl fetch_source initial (SOURCES COUNTRY_CODE).

(** [sum(totals.values())] *)
Definition total_channels (totals : gmap str nat) : nat :=
  map_fold (fun _ n acc => (n + acc)%nat) 0%nat totals.

(** The loop, then lines 48 and 49.  The write is outside every [try]:
    when the text cannot be encoded the run ends there, and the flag is
    [false]. *)
Definition step1 : list event * bool :=
  let st := fetch_playlists in
  if utf8_encodable (combined st) then
    (fetch_trace st
     ++ [EWriteText PLAYLIST_PATH (combined st);
         EPrint (MsgPlaylist (total_channels (totals st)) (size (channel_ids st)))],
     true)
  else (fetch_trace st ++ [EWriteFailed PLAYLIST_PATH], false).

Definition load_channel_db : gmap str channel * list event :=
  match get_text net CHANNELS_CSV_URL with
  | Some text =>
      let db := parse_channel_db text in
      (db, [EGet CHANNELS_CSV_URL; EPrint (MsgChannelDb (size db))])
  | None => (∅, [EGet CHANNELS_CSV_URL; EPrint MsgChannelDbFailed])
  end.

Definition load_epg_channels : gmap pykey site_ref * list event :=
  match get_json net EPG_CHANNELS_URL with
  | Some v =>
      match iterate v with
      | Some chs =>
          let '(m, completed) := index_channels chs ∅ in
          (m, [EGet EPG_CHANNELS_URL;
               EPrint (if completed then MsgEpgChannels (size m) else MsgEpgChannelsFailed)])
      | None => (∅, [EGet EPG_CHANNELS_URL; EPrint MsgEpgChannelsFailed])
      end
  | None => (∅, [EGet EPG_CHANNELS_URL; EPrint MsgEpgChannelsFailed])
  end.

(** [resp.content]: the body once requests has decoded it. *)
Definition resp_content (resp : response) : option (list byte) :=
  decode_content (default [] (resp_header resp (lit "Content-Encoding"))) (resp_body resp).

(** The test of line 124. *)
Definition declared_gzip (resp : response) : bool :=
  let ct := default [] (resp_header resp (lit "Content-Type")) in
  let ce := default [] (resp_header resp (lit "Content-Encoding")) in
  contains (lit "gzip") ce || contains (lit "gzip") ct.

(** What is written to [epg.xml.gz] for a response whose [resp.content] is
    [content]. *)
Definition epg_bytes (resp : response) (content : list byte) : list byte :=
  if declared_gzip resp then content else gzip_compress content.

(** [for cid in channel_ids]: a set is visited in an order of its own,
    here that of [elements]. *)
Definition enrich_all (ids : gset str) (channel_db : gmap str channel)
    (epg_channels : gmap pykey site_ref) : list (gmap str json) :=
  map (enrich channel_db epg_channels) (elements ids).

Definition matched (ids : gset str) (epg_channels : gmap pykey site_ref) : nat :=
  length (filter (fun cid => is_Some (epg_channels !! KStr cid)) (elements ids)).

Definition dispatch (ids : gset str) (channel_db : gmap str channel)
    (epg_channels : gmap pykey site_ref) : list event :=
  match EPG_FETCHER_URL with
  | [] => [EPrint MsgNoFetcherUrl]
  | _ :: _ =>
      if bool_decide (ids = ∅) then [EPrint MsgNoChannelIds]
      else
        let enriched := enrich_all ids channel_db epg_channels in
        let req := {| req_channels := enriched;
                      req_country := COUNTRY_CODE;
                      req_lang := lit "en" |} in
        [EPrint (MsgSending (length enriched) (matched ids epg_channels));
         EPost EPG_FETCHER_URL req]
        ++ match post_json net EPG_FETCHER_URL req with
           | Some resp =>
               match resp_content resp with
               | Some content =>
                   let data := epg_bytes resp content in
                   [EWriteBytes EPG_PATH data;
                    EPrint (MsgEpgSaved (length data / 1024)%nat)]
               | None => [EPrint MsgEpgFailed]
               end
           | None => [EPrint MsgEpgFailed]
           end
  end.

(** The whole script, top to bottom: steps 2 to 4 and the last line run
    only when line 48 has not raised. *)
Definition main : list event :=
  let st := fetch_playlists in
  let '(trace1, written) := step1 in
  if written then
    let '(channel_db, trace2) := load_channel_db in
    let '(epg_channels, trace3) := load_epg_channels in
    trace1 ++ trace2 ++ trace3
    ++ dispatch (channel_ids st) channel_db epg_channels
    ++ [EPrint MsgDone]
  else trace1.

End Script.

(** The files a trace leaves behind: the last write to each path.  A
    write that failed leaves its file empty. *)
Definition written_text (path : str) (tr : list event) : option str :=
  foldl (fun acc e => match e with
                      | EWriteText p t => if bool_decide (p = path) then Some t else acc
                      | EWriteFailed p => if bool_decide (p = path) then Some [] else acc
                      | _ => acc
                      end) None tr.

Definition written_bytes (path : str) (tr : list event) : option (list byte) :=
  foldl (fun acc e => match e with
                      | EWriteBytes p d => if bool_decide (p = path) then Some d else acc
                      | _ => acc
                      end) None tr.

(** The effects of the dispatch stage: the call to the enrichment service
    and the write of the guide data. *)
Definition dispatch_effect (e : event) : bool :=
  match e with
  | EPost _ _ | EWriteBytes _ _ => true
  | _ => false
  end.

(** An event that leaves every text file as it is. *)
Definition keeps_text (e : event) : Prop :=
  match e with
  | EWriteText _ _ | EWriteFailed _ => False
  | _ => True
  end.

(** The URLs fetched, in order. *)
Definition gets (tr : list event) : list str :=
  omap (fun e => match e with EGet url => Some url | _ => None end) tr.

(** ** The installer: [kodi-installer/installer.py] *)

Module Installer.

Definition LOCAL_PLAYLIST : str := lit "F:/NewKodiProjects/myTV/docs/playlist.m3u8".
Definition LOCAL_EPG : str := lit "F:/NewKodiProjects/myTV/docs/epg.xml.gz".
Definition REMOTE_PLAYLIST : str := lit "https://Debe2025.github.io/myTV/playlist.m3u8".
Definition REMOTE_EPG : str := lit "https://Debe2025.github.io/myTV/epg.xml.gz".
Definition COUNTRY : str := lit "Canada".
Definition CHANNELS : str := lit "1644".

Inductive log_level := LOGINFO | LOGERROR.

(** What the script shows and logs. *)
Inductive ui :=
| Select (heading : str) (options : list str)   (* dialog.select *)
| Ok (heading : str) (message : str)            (* dialog.ok *)
| Log (message : str) (level : log_level).      (* xbmc.log *)

(** The host application: the index the user picks in the dialog (negative
    when the dialog is dismissed) and what [xbmcaddon.Addon] finds for
    pvr.iptvsimple, either the text of the exception it raises or the
    settings of the add-on.  [setSetting], [dialog.ok] and [xbmc.log] are
    taken not to raise. *)
Record host := {
  picked : Z;
  pvr : str + gmap str str
}.

(** The calls [pvr.setSetting(id, value)] of each branch, in order. *)
Definition LOCAL_SETTINGS : list (str * str) :=
  [ (lit "m3uPathType", lit "0"); (lit "m3uPath", LOCAL_PLAYLIST);
    (lit "epgPathType", lit "0"); (lit "epgPath", LOCAL_EPG) ].

Definition REMOTE_SETTINGS : list (str * str) :=
  [ (lit "m3uPathType", lit "1"); (lit "m3uUrl", REMOTE_PLAYLIST);
    (lit "epgPathType", lit "1"); (lit "epgUrl", REMOTE_EPG) ].

Definition COMMON_SETTINGS : list (str * str) :=
  [ (lit "m3uCache", lit "true"); (lit "m3uRefreshMode", lit "2");
    (lit "m3uRefreshIntervalMins", lit "60"); (lit "epgCache", lit "true");
    (lit "logoPathType", lit "1");
    (lit "logoBaseUrl", lit "https://iptv-org.github.io/iptv/logos/") ].

Definition set_all (calls : list (str * str)) (s : gmap str str) : gmap str str :=
  foldl (fun s kv => <[kv.1 := kv.2]> s) s calls.

Definition source_settings (choice : Z) : list (str * str) :=
  if (choice =? 0)%Z then LOCAL_SETTINGS else REMOTE_SETTINGS.

Definition source_name (choice : Z) : str :=
  if (choice =? 0)%Z then lit "Local files" else lit "GitHub Pages".

Definition configure (choice : Z) (s : gmap str str) : gmap str str :=
  set_all COMMON_SETTINGS (set_all (source_settings choice) s).

Definition SELECT : ui :=
  Select (lit "myTV - Choose Source")
    [lit "Local files  (works immediately)"; lit "GitHub Pages (auto-updates after push)"].

Definition complete_message (source : str) : str :=
  lit "PVR IPTV Simple configured!" ++ [newline; newline]
  ++ lit "Source:   " ++ source ++ [newline]
  ++ lit "Country:  " ++ COUNTRY ++ [newline]
  ++ lit "Channels: " ++ CHANNELS ++ [newline; newline]
  ++ lit "Restart Kodi, then enable Live TV.".

Definition error_message (e : str) : str :=
  lit "Could not configure PVR IPTV Simple." ++ [newline; newline]
  ++ lit "Is it installed?" ++ [newline; newline] ++ e.

(** [run()]: the add-on after the call, and what was shown and logged. *)
Definition run (h : host) : (str + gmap str str) * list ui :=
  if (picked h <? 0)%Z then (pvr h, [SELECT])
  else
    match pvr h with
    | inr s =>
        (inr (configure (picked h) s),
         [SELECT;
          Ok (lit "myTV Setup Complete") (complete_message (source_name (picked h)));
          Log (lit "[myTV] Configured with " ++ source_name (picked h)) LOGINFO])
    | inl e =>
        (inl e,
         [SELECT;
          Ok (lit "myTV Error") (error_message e);
          Log (lit "[myTV] Error: " ++ e) LOGERROR])
    end.

End Installer.

(** ** Concrete inputs used to run the model *)

(** [str.upper] on the ASCII letters. *)
Definition upper_ascii (s : str) : str :=
  map (fun c => if (97 <=? c) && (c <=? 122) then c - 32 else c) s.

(** A text between double quotes. *)
Definition quoted (s : str) : str := [quote] ++ s ++ [quote].

(** No variable set in the environment. *)
Definition no_env : environ :=
  {| env_COUNTRY_CODE := None; env_EPG_FETCHER_URL := None |}.

(** A network on which the playlist at [url] is [content] and every other
    call fails. *)
Definition one_playlist (url content : str) : remote :=
  {| get_text := fun u => if bool_decide (u = url) then Some content else None;
     get_json := fun _ => None;
     post_json := fun _ _ => None |}.

Definition US_URL : str := IPTV_BASE ++ lit "/countries/us.m3u".
Definition NEWS_URL : str := IPTV_BASE ++ lit "/categories/news.m3u".

(** A playlist in which one identifier is written twice, once with a
    leading space. *)
Definition spaced_playlist : str :=
  lit "#EXTM3U
#EXTINF:-1 tvg-id=" ++ quoted (lit " a") ++ lit ",A
http://a.example/1
#EXTINF:-1 tvg-id=" ++ quoted (lit "a") ++ lit ",A again
http://a.example/2
".

(** A playlist that names the document marker inside an entry. *)
Definition marked_playlist : str :=
  lit "#EXTM3U
#EXTINF:-1,All about #EXTM3U files
http://a.example/1
".

(** The registry record of the spec's scenario, the four fields it elides
    being [m2] to [m5]. *)
Definition demo_record (m2 m3 m4 m5 : str) : str :=
  lit "id1" ++ comma :: quoted (lit "Demo, Channel") ++ comma :: m2 ++ comma :: m3
  ++ comma :: m4 ++ comma :: m5 ++ comma :: quoted (lit "en;fr").

(** A field with neither comma nor quote. *)
Definition plain (m : str) : Prop := (comma ∉ m) /\ unquoted m.

(** An environment that names an enrichment service. *)
Definition fetcher_env : environ :=
  {| env_COUNTRY_CODE := None;
     env_EPG_FETCHER_URL := Some (lit "https://epg.example/fetch") |}.

(** A response that does not declare gzip. *)
Definition xml_response : response :=
  {| resp_header := fun h => if bool_decide (h = lit "Content-Type")
                             then Some (lit "application/xml") else None;
     resp_body := [x3c; x74; x76; x2f; x3e] |}.

(** A network with one playlist, no catalogue, and an enrichment service
    that answers [resp]. *)
Definition guide_net (resp : response) : remote :=
  {| get_text := fun u => if bool_decide (u = US_URL) then Some spaced_playlist else None;
     get_json := fun _ => None;
     post_json := fun _ _ => Some resp |}.

(** A stand-in for the gzip codec, enough to run the model: the two magic
    bytes of a gzip member, then the data as they are. *)
Definition frame (data : list byte) : list byte := x1f :: x8b :: data.

Definition unframe (data : list byte) : option (list byte) :=
  match data with
  | x1f :: x8b :: rest => Some rest
  | _ => None
  end.

(** A stand-in for the decoding requests applies: a body sent under
    Content-Encoding gzip is unpacked, any other body is handed over as it
    is. *)
Definition decode_frame (ce : str) (body : list byte) : option (list byte) :=
  if bool_decide (ce = lit "gzip") then unframe body else Some body.

(** The same guide data sent compressed, as a server does for a client
    that accepts gzip (requests announces that it does). *)
Definition gzip_response : response :=
  {| resp_header := fun h => if bool_decide (h = lit "Content-Type")
                             then Some (lit "application/xml")
                             else if bool_decide (h = lit "Content-Encoding")
                                  then Some (lit "gzip") else None;
     resp_body := frame [x3c; x74; x76; x2f; x3e] |}.

(** A network on which every call fails. *)
Definition dead_net : remote :=
  {| get_text := fun _ => None; get_json := fun _ => None; post_json := fun _ _ => None |}.

(** A guide index: the identifier [a.us] listed by two sites, an object
    without identifier, an object with an empty one. *)
Definition demo_index : list json :=
  [ JObj (<[lit "xmltv_id" := JStr (lit "a.us")]>
          (<[lit "site" := JStr (lit "one.example")]>
           (<[lit "site_id" := JStr (lit "1")]> ∅)));
    JObj (<[lit "site" := JStr (lit "none.example")]> ∅);
    JObj (<[lit "xmltv_id" := JStr []]> (<[lit "site" := JStr (lit "empty.example")]> ∅));
    JObj (<[lit "xmltv_id" := JStr (lit "a.us")]>
          (<[lit "site" := JStr (lit "two.example")]> ∅)) ].

Definition index_net : remote :=
  {| get_text := fun _ => None;
     get_json := fun _ => Some (JArr demo_index);
     post_json := fun _ _ => None |}.

(** An index whose second element is a number. *)
Definition broken_index : list json :=
  [ JObj (<[lit "xmltv_id" := JStr (lit "a.us")]> ∅); JInt 5;
    JObj (<[lit "xmltv_id" := JStr (lit "b.uk")]> ∅) ].

Definition broken_index_net : remote :=
  {| get_text := fun _ => None;
     get_json := fun _ => Some (JArr broken_index);
     post_json := fun _ _ => None |}.

(** A playlist whose channel name holds a lone surrogate, as a lenient
    decoder leaves one in [r.text]. *)
Definition surrogate_playlist : str :=
  lit "#EXTM3U
#EXTINF:-1 tvg-id=" ++ quoted (lit "a") ++ lit ",A" ++ [55296] ++ lit "
http://a.example/1
".

(** ** What the claims speak of *)

Section Observations.
Variable env : environ.
Variable net : remote.

(** The texts of the sources fetched with success, in the order of
    [SOURCES]. *)
Definition fetched_contents : list str :=
  omap (fun src : str * str => get_text net src.2) (SOURCES (COUNTRY_CODE env)).

(** Every value of a [tvg-id] attribute in these texts, as written. *)
Definition tvg_values : list str :=
  fetched_contents ≫= finditer_tvg.

(** These values once stripped, the empty ones left out. *)
Definition identifiers : list str :=
  filter (fun x : str => x <> []) (strip <$> tvg_values).

(** The section of the combined document for one source: nothing when the
    fetch failed, else the banner and the body. *)
Definition section_of (upper : str -> str) (src : str * str) : str :=
  match get_text net src.2 with
  | Some content => banner upper env src.1 ++ body content
  | None => []
  end.

(** Following the words of the spec: the text with its leading document
    marker stripped, later occurrences kept. *)
Definition strip_leading_marker (content : str) : str :=
  match strip_prefix EXTM3U content with
  | Some rest => rest
  | None => content
  end.

(** The payload the dispatcher posts. *)
Definition posted_request (upper : str -> str) : request :=
  {| req_channels := enrich_all (channel_ids (fetch_playlists upper env net))
                       (load_channel_db net).1 (load_epg_channels net).1;
     req_country := COUNTRY_CODE env;
     req_lang := lit "en" |}.

(** What the loop of step 1 records in [totals] for the source at [url]. *)
Definition recorded (url : str) : nat :=
  match get_text net url with
  | Some content => count_all EXTINF content
  | None => 0%nat
  end.

End Observations.

(** The number of positions of [s] at which [p] stands. *)
Definition occurrences (p s : str) : nat :=
  length (filter (fun i => p `prefix_of` drop i s) (seq 0 (length s))).

(** The key and the value an element of the index is stored under, when the
    loop body stores it. *)
Definition binding (ch : json) : option (pykey * site_ref) :=
  mjoin (index_entry ch).

(** An element the loop body accepts: an object whose [xmltv_id], when it
    is set to a truthy value, can be hashed (a string, a number, a
    boolean). *)
Definition index_object (ch : json) : Prop :=
  exists d, ch = JObj d
    /\ forall v, d !! lit "xmltv_id" = Some v -> truthy v = true -> is_Some (hashable v).

(** * Properties *)

(** ** Text *)

Example strip_ex : strip (lit "  a b	") = lit "a b".
Proof. reflexivity. Qed.

Example split_ex : split newline (lit "a
b
") = [lit "a"; lit "b"; lit ""].
Proof. reflexivity. Qed.

Example remove_all_ex : remove_all (lit "#EXTM3U") (lit "#EXTM3U
x #EXTM3U y") = lit "
x  y".
Proof. reflexivity. Qed.

Example count_all_ex : count_all (lit "#EXTINF") (lit "#EXTINF:-1,#EXTINF") = 2%nat.
Proof. reflexivity. Qed.

Example finditer_ex :
  finditer_tvg (lit "#EXTINF:-1 tvg-id=" ++ [quote] ++ lit "a.us" ++ [quote]
                ++ lit " tvg-id=" ++ [quote; quote] ++ lit " tvg-id=" ++ [quote] ++ lit " b " ++ [quote]
                ++ lit ",A tvg-id=" ++ [quote] ++ lit "open")
  = [lit "a.us"; lit " b "].
Proof. reflexivity. Qed.

Example re_split_csv_ex :
  re_split_csv (lit "id1," ++ [quote] ++ lit "Demo, Channel" ++ [quote] ++ lit ",,x")
  = [lit "id1"; [quote] ++ lit "Demo, Channel" ++ [quote]; lit ""; lit "x"].
Proof. reflexivity. Qed.

(** The defining equations of the scans, free of their termination
    arguments. *)
Lemma remove_all_cons p c t :
  remove_all p (c :: t) =
  match strip_prefix p (c :: t), p with
  | Some r, _ :: _ => remove_all p r
  | _, _ => c :: remove_all p t
  end.
Proof.
  rewrite remove_all_equation_2.
  assert (H : forall o (e : strip_prefix p (c :: t) = o),
             remove_all_unfold_clause_2 p c t (exist _ o e) =
             match o, p with
             | Some r, _ :: _ => remove_all p r
             | _, _ => c :: remove_all p t
             end).
  { intros [r|] e; simp remove_all; [|done]. destruct p; by simp remove_all. }
  apply H.
Qed.

Lemma finditer_tvg_cons c t :
  finditer_tvg (c :: t) =
  match match_tvg (c :: t) with
  | Some (v, r) => v :: finditer_tvg r
  | None => finditer_tvg t
  end.
Proof.
  rewrite finditer_tvg_equation_2.
  assert (H : forall o (e : match_tvg (c :: t) = o),
             finditer_tvg_unfold_clause_2 c t (exist _ o e) =
             match o with
             | Some (v, r) => v :: finditer_tvg r
             | None => finditer_tvg t
             end).
  { intros [[v r]|] e; by simp finditer_tvg. }
  apply H.
Qed.

Lemma strip_prefix_Some p s r : strip_prefix p s = Some r -> s = p ++ r.
Proof.
  revert s; induction p as [|a p IH]; intros [|c s] H; simpl in H; simplify_eq; [done..|].
  destruct (a =? c) eqn:E; [|done]. apply N.eqb_eq in E as ->. by rewrite (IH s H).
Qed.

Lemma span_unquoted_spec s u r :
  span_unquoted s = (u, r) ->
  s = u ++ r /\ unquoted u /\ (r = [] \/ exists r', r = quote :: r').
Proof.
  revert u r; induction s as [|c s IH]; intros u r E; simpl in E.
  - simplify_eq. split; [done|]. split; [constructor|by left].
  - destruct (c =? quote) eqn:Ec.
    + apply N.eqb_eq in Ec as ->. simplify_eq. split; [done|]. split; [constructor|].
      right. by exists s.
    + apply N.eqb_neq in Ec. destruct (span_unquoted s) as [u' r'] eqn:E'. simplify_eq.
      destruct (IH u' r eq_refl) as (-> & Hu & Hr). split; [done|]. split; [|done].
      by constructor.
Qed.

(** A match of the identifier pattern is an attribute of the text: the
    prefix, a non-empty value without quote, the closing quote. *)
Lemma match_tvg_Some s v r :
  match_tvg s = Some (v, r) ->
  s = tvg_prefix ++ v ++ quote :: r /\ v <> [] /\ unquoted v.
Proof.
  unfold match_tvg. destruct (strip_prefix tvg_prefix s) as [r0|] eqn:E; [|done].
  apply strip_prefix_Some in E as ->.
  destruct (span_unquoted r0) as [v' r'] eqn:E2.
  apply span_unquoted_spec in E2 as (-> & Hu & Hr).
  destruct v' as [|c v']; [done|]. destruct r' as [|q rest]; [done|].
  intros [= <- <-]. destruct Hr as [|[r' [= -> ->]]]; [done|]. done.
Qed.

(** Every value the scan returns is the value of such an attribute in the
    text. *)
Lemma finditer_tvg_occurs s v :
  v ∈ finditer_tvg s ->
  v <> [] /\ unquoted v /\ exists pre post, s = pre ++ tvg_prefix ++ v ++ quote :: post.
Proof.
  remember (length s) as n eqn:Hn. revert s Hn.
  induction n as [n IH] using lt_wf_ind. intros [|c t] -> Hv.
  { rewrite finditer_tvg_equation_1 in Hv. by apply elem_of_nil in Hv. }
  rewrite finditer_tvg_cons in Hv.
  destruct (match_tvg (c :: t)) as [[v0 r]|] eqn:E.
  - pose proof (match_tvg_length _ _ _ E) as Hlen.
    apply match_tvg_Some in E as (Es & Hne & Hu).
    apply elem_of_cons in Hv as [->|Hv].
    + split; [done|]. split; [done|]. exists [], r. by rewrite Es.
    + destruct (IH (length r) Hlen r eq_refl Hv) as (Hne' & Hu' & pre & post & ->).
      split; [done|]. split; [done|].
      exists (tvg_prefix ++ v0 ++ quote :: pre), post. rewrite Es.
      by rewrite <- !app_assoc.
  - destruct (IH (length t) (Nat.lt_succ_diag_r _) t eq_refl Hv)
      as (Hne' & Hu' & pre & post & ->).
    split; [done|]. split; [done|]. by exists (c :: pre), post.
Qed.

Section StripBy.
Variable p : char -> bool.

Lemma lstrip_by_app_l a s : Forall (fun c => p c = true) a -> lstrip_by p (a ++ s) = lstrip_by p s.
Proof. induction 1 as [|c a Hc _ IH]; simpl; [done|]. by rewrite Hc. Qed.

Lemma lstrip_by_all a : Forall (fun c => p c = true) a -> lstrip_by p a = [].
Proof. intros H. rewrite <- (app_nil_r a). by rewrite lstrip_by_app_l. Qed.


Lemma lstrip_by_head s c t : lstrip_by p s = c :: t -> p c = false.
Proof.
  induction s as [|d s IH]; simpl; [done|].
  destruct (p d) eqn:E; [done|]. intros; by simplify_eq.
Qed.

Lemma lstrip_by_idemp s : lstrip_by p (lstrip_by p s) = lstrip_by p s.
Proof.
  destruct (lstrip_by p s) as [|c t] eqn:E; [done|].
  simpl. by rewrite (lstrip_by_head _ _ _ E).
Qed.


Lemma rstrip_by_nil_inv s : rstrip_by p s = [] -> Forall (fun c => p c = true) s.
Proof.
  unfold rstrip_by. intros H.
  assert (Hr : lstrip_by p (rev s) = []).
  { rewrite <- (rev_involutive (lstrip_by p (rev s))), H. done. }
  rewrite <- (rev_involutive s). apply Forall_rev.
  clear H. induction (rev s) as [|c r IH]; [constructor|].
  simpl in Hr. destruct (p c) eqn:E; [|done]. constructor; auto.
Qed.


(** A text made of characters selected by [p] strips to nothing. *)
Lemma strip_by_all v : Forall (fun c => p c = true) v -> strip_by p v = [].
Proof. intros H. unfold strip_by. by rewrite lstrip_by_all. Qed.

Lemma strip_by_nil_inv v : strip_by p v = [] -> Forall (fun c => p c = true) v.
Proof.
  unfold strip_by. intros H%rstrip_by_nil_inv.
  induction v as [|c v IH]; [constructor|].
  simpl in H. destruct (p c) eqn:E; [constructor; auto|].
  by inversion H; simplify_eq.
Qed.

Lemma rstrip_by_prefix s : exists b, s = rstrip_by p s ++ b /\ Forall (fun c => p c = true) b.
Proof.
  unfold rstrip_by.
  assert (H : forall r, exists a, r = a ++ lstrip_by p r /\ Forall (fun c => p c = true) a).
  { induction r as [|c r [a [E Ha]]]; [by exists []|]. simpl.
    destruct (p c) eqn:Ec; [|by exists []].
    exists (c :: a). split; [by rewrite E at 1 | by constructor]. }
  destruct (H (rev s)) as [a [E Ha]]. exists (rev a). split; [|by apply Forall_rev].
  rewrite <- rev_app_distr, <- E. by rewrite rev_involutive.
Qed.

Lemma rstrip_by_idemp s : rstrip_by p (rstrip_by p s) = rstrip_by p s.
Proof. unfold rstrip_by. by rewrite rev_involutive, lstrip_by_idemp. Qed.

(** Stripping twice is stripping once. *)
Lemma strip_by_idemp v : strip_by p (strip_by p v) = strip_by p v.
Proof.
  unfold strip_by.
  assert (H : lstrip_by p (rstrip_by p (lstrip_by p v)) = rstrip_by p (lstrip_by p v)).
  { destruct (lstrip_by p v) as [|c t] eqn:E; [done|].
    pose proof (lstrip_by_head _ _ _ E) as Hc.
    destruct (rstrip_by_prefix (c :: t)) as [b [Eb _]].
    destruct (rstrip_by p (c :: t)) as [|d r]; [done|].
    simpl in Eb. injection Eb as -> _. simpl. by rewrite Hc. }
  by rewrite H, rstrip_by_idemp.
Qed.

End StripBy.

(** ** Step 1: the playlist aggregator *)

Lemma foldl_add_id vs ids :
  foldl add_id ids vs = ids ∪ list_to_set (filter (fun x : str => x <> []) (strip <$> vs)).
Proof.
  revert ids; induction vs as [|v vs IH]; intros ids; simpl.
  - set_solver.
  - rewrite IH, filter_cons. unfold add_id.
    destruct (strip v) as [|c t]; case_decide; try done; set_solver.
Qed.

Section Aggregator.
Variable upper : str -> str.
Variable env : environ.
Variable net : remote.

Lemma channel_ids_fetch_source st src :
  channel_ids (fetch_source upper env net st src)
  = channel_ids st
    ∪ list_to_set (filter (fun x : str => x <> [])
                     (strip <$> (option_list (get_text net src.2) ≫= finditer_tvg))).
Proof.
  destruct src as [label url]. unfold fetch_source. simpl.
  destruct (get_text net url) as [content|]; simpl.
  - unfold add_ids. by rewrite foldl_add_id, app_nil_r.
  - set_solver.
Qed.

Lemma channel_ids_foldl srcs st :
  channel_ids (foldl (fetch_source upper env net) st srcs)
  = channel_ids st
    ∪ list_to_set (filter (fun x : str => x <> [])
                     (strip <$> (omap (fun src : str * str => get_text net src.2) srcs
                                 ≫= finditer_tvg))).
Proof.
  revert st; induction srcs as [|src srcs IH]; intros st; simpl.
  - set_solver.
  - rewrite IH, channel_ids_fetch_source.
    destruct (get_text net src.2) as [content|]; simpl.
    + rewrite app_nil_r, fmap_app, filter_app, list_to_set_app_L. set_solver.
    + set_solver.
Qed.

(** The identifier set is the set of the stripped, non-empty values. *)
Lemma channel_ids_identifiers :
  channel_ids (fetch_playlists upper env net) = list_to_set (identifiers env net).
Proof.
  unfold fetch_playlists. rewrite channel_ids_foldl.
  change (channel_ids initial) with (∅ : gset str).
  by rewrite (left_id_L ∅ (∪)).
Qed.

End Aggregator.

Lemma strip_prefix_app p s : strip_prefix p (p ++ s) = Some s.
Proof. induction p as [|a p IH]; simpl; [done|]. by rewrite N.eqb_refl. Qed.

Lemma remove_all_cons_ne h p c t :
  h <> c -> remove_all (h :: p) (c :: t) = c :: remove_all (h :: p) t.
Proof.
  intros Hc. rewrite remove_all_cons. cbn [strip_prefix].
  by rewrite (proj2 (N.eqb_neq h c) Hc).
Qed.

Lemma remove_all_prefix h p s :
  remove_all (h :: p) ((h :: p) ++ s) = remove_all (h :: p) s.
Proof.
  change ((h :: p) ++ s) with (h :: (p ++ s)). rewrite remove_all_cons.
  change (h :: (p ++ s)) with ((h :: p) ++ s). by rewrite strip_prefix_app.
Qed.

Lemma remove_all_marker_skip a s :
  hash ∉ a -> remove_all EXTM3U (a ++ s) = a ++ remove_all EXTM3U s.
Proof.
  change EXTM3U with (hash :: lit "EXTM3U").
  induction a as [|c a IH]; intros Ha; [done|].
  apply not_elem_of_cons in Ha as [Hc Ha].
  simpl. rewrite remove_all_cons_ne by done. f_equal. by apply IH.
Qed.

Lemma remove_all_marker_here s :
  remove_all EXTM3U (EXTM3U ++ s) = remove_all EXTM3U s.
Proof. change EXTM3U with (hash :: lit "EXTM3U"). apply remove_all_prefix. Qed.

Lemma combined_foldl upper env net srcs st :
  combined (foldl (fetch_source upper env net) st srcs)
  = combined st ++ concat (map (section_of env net upper) srcs).
Proof.
  revert st; induction srcs as [|[label url] srcs IH]; intros st;
    cbn [foldl map concat].
  - by rewrite app_nil_r.
  - rewrite IH. unfold fetch_source, section_of. cbn [fst snd].
    destruct (get_text net url); cbn [combined app]; by rewrite <- ?app_assoc.
Qed.

Section AggregatorClaims.
Variable upper : str -> str.
Variable env : environ.
Variable net : remote.

Let ids : gset str := channel_ids (fetch_playlists upper env net).

Lemma elem_of_tvg_values v :
  v ∈ tvg_values env net <->
  exists label url content,
    (label, url) ∈ SOURCES (COUNTRY_CODE env)
    /\ get_text net url = Some content /\ v ∈ finditer_tvg content.
Proof.
  unfold tvg_values, fetched_contents. rewrite list_elem_of_bind. split.
  - intros (content & Hv & Hc). apply list_elem_of_omap in Hc as ([label url] & Hs & Hg).
    by exists label, url, content.
  - intros (label & url & content & Hs & Hg & Hv). exists content. split; [done|].
    apply list_elem_of_omap. by exists (label, url).
Qed.

Lemma elem_of_channel_ids x :
  x ∈ ids <-> x <> [] /\ exists v, v ∈ tvg_values env net /\ x = strip v.
Proof.
  unfold ids. rewrite channel_ids_identifiers, elem_of_list_to_set.
  unfold identifiers. rewrite list_elem_of_filter, list_elem_of_fmap. naive_solver.
Qed.

(** C1, as amended: the identifier set holds exactly one member for each
    distinct value that a [tvg-id] attribute of a fetched source takes
    once its surrounding whitespace is stripped, values that strip to
    nothing left out; in how many sources, or how often, the value occurs
    does not matter. *)
Theorem channel_ids_one_member_per_identifier :
  elements ids ≡ₚ remove_dups (identifiers env net)
  /\ NoDup (elements ids)
  /\ size ids = length (remove_dups (identifiers env net))
  /\ (forall x, x ∈ ids <->
        x <> [] /\ exists label url content v,
          (label, url) ∈ SOURCES (COUNTRY_CODE env)
          /\ get_text net url = Some content
          /\ v ∈ finditer_tvg content /\ x = strip v)
  /\ (forall content v, v ∈ finditer_tvg content ->
        v <> [] /\ unquoted v
        /\ exists pre post, content = pre ++ tvg_prefix ++ v ++ quote :: post).
Proof.
  assert (Hperm : elements ids ≡ₚ remove_dups (identifiers env net)).
  { unfold ids. rewrite channel_ids_identifiers.
    rewrite <- (elements_list_to_set (C := gset str) (remove_dups (identifiers env net)))
      by apply NoDup_remove_dups.
    f_equiv. intros x.
    by rewrite !elem_of_list_to_set, elem_of_remove_dups. }
  split; [done|]. split; [apply NoDup_elements|]. split; [|split].
  - unfold size, set_size. simpl. by rewrite Hperm.
  - intros x. rewrite elem_of_channel_ids. split.
    + intros (Hx & v & Hv & ->). split; [done|].
      apply elem_of_tvg_values in Hv as (label & url & content & ? & ? & ?).
      by exists label, url, content, v.
    + intros (Hx & label & url & content & v & ? & ? & ? & ->). split; [done|].
      exists v. split; [|done]. apply elem_of_tvg_values. by exists label, url, content.
  - apply finditer_tvg_occurs.
Qed.


(** C5: the combined document is the format header followed by one
    section for each of the four sources that was fetched, in the declared
    order (the country source, then news, movies, sports), and nothing
    for a source whose fetch failed.  A section is the banner (a rule, the
    heading naming the source, a rule) and then the body of the source. *)
Theorem combined_sections_in_order :
  let rule := lit "# ======================================" in
  let section (title : str) (fetched : option str) : str :=
    match fetched with
    | Some content =>
        rule ++ [newline] ++ lit "# " ++ title ++ [newline] ++ rule ++ [newline]
        ++ strip (remove_all (lit "#EXTM3U") content) ++ [newline; newline]
    | None => []
    end in
  let base := lit "https://iptv-org.github.io/iptv" in
  combined (fetch_playlists upper env net)
  = lit "#EXTM3U" ++ [newline; newline]
    ++ section (lit "LOCAL - " ++ upper (COUNTRY_CODE env))
         (get_text net (base ++ lit "/countries/" ++ COUNTRY_CODE env ++ lit ".m3u"))
    ++ section (upper (lit "news")) (get_text net (base ++ lit "/categories/news.m3u"))
    ++ section (upper (lit "movies")) (get_text net (base ++ lit "/categories/movies.m3u"))
    ++ section (upper (lit "sports")) (get_text net (base ++ lit "/categories/sports.m3u")).
Proof.
  intros rule section base.
  unfold fetch_playlists. rewrite combined_foldl.
  unfold SOURCES. cbn [map concat]. unfold section_of. cbn [fst snd].
  unfold banner, heading, body.
  rewrite (bool_decide_eq_true_2 (lit "country" = lit "country")) by done.
  rewrite (bool_decide_eq_false_2 (lit "news" = lit "country")) by (by vm_compute).
  rewrite (bool_decide_eq_false_2 (lit "movies" = lit "country")) by (by vm_compute).
  rewrite (bool_decide_eq_false_2 (lit "sports" = lit "country")) by (by vm_compute).
  change (combined initial) with (lit "#EXTM3U" ++ [newline; newline]).
  change IPTV_BASE with base. change RULE with rule. change EXTM3U with (lit "#EXTM3U").
  rewrite app_nil_r, <- app_assoc. unfold section.
  destruct (get_text net (base ++ lit "/countries/" ++ COUNTRY_CODE env ++ lit ".m3u")),
    (get_text net (base ++ lit "/categories/news.m3u")),
    (get_text net (base ++ lit "/categories/movies.m3u")),
    (get_text net (base ++ lit "/categories/sports.m3u"));
    by rewrite <- ?app_assoc.
Qed.

(** C6, as amended: for a fetched source the loop appends the banner (a
    rule, the heading, a rule; the heading is LOCAL and the uppercased
    country code for the country source, else the uppercased label) and
    then the text with every occurrence of the document marker deleted,
    not the leading one only, stripped of surrounding whitespace and
    followed by a blank line. *)
Theorem appended_banner_and_body st label url content :
  get_text net url = Some content ->
  combined (fetch_source upper env net st (label, url))
  = combined st
    ++ (RULE ++ [newline] ++ lit "# "
        ++ (if bool_decide (label = lit "country")
            then lit "LOCAL - " ++ upper (COUNTRY_CODE env)
            else upper label)
        ++ [newline] ++ RULE ++ [newline])
    ++ (strip (remove_all EXTM3U content) ++ [newline; newline])
  /\ (forall a b, hash ∉ a -> hash ∉ b ->
        remove_all EXTM3U (EXTM3U ++ a ++ EXTM3U ++ b) = a ++ b).
Proof.
  intros Hget. split.
  - unfold fetch_source. rewrite Hget. simpl. by rewrite <- app_assoc.
  - intros a b Ha Hb.
    rewrite remove_all_marker_here, remove_all_marker_skip by done.
    rewrite remove_all_marker_here.
    rewrite <- (app_nil_r b) at 1. rewrite remove_all_marker_skip by done.
    by rewrite app_nil_r.
Qed.

End AggregatorClaims.

(** C1, as stated, fails: two attribute values that differ by a leading
    space are two distinct non-empty values, and the set holds one member. *)
Lemma channel_ids_not_one_member_per_value :
  let net := one_playlist US_URL spaced_playlist in
  let ids := channel_ids (fetch_playlists upper_ascii no_env net) in
  tvg_values no_env net = [lit " a"; lit "a"]
  /\ elements ids = [lit "a"]
  /\ ~ (elements ids ≡ₚ remove_dups (tvg_values no_env net)).
Proof.
  intros net ids.
  assert (Hv : tvg_values no_env net = [lit " a"; lit "a"]) by (vm_compute; reflexivity).
  assert (He : elements ids = [lit "a"]) by (vm_compute; reflexivity).
  split; [done|]. split; [done|].
  rewrite He, Hv. intros Hp. apply Permutation_length in Hp. vm_compute in Hp. discriminate.
Qed.

(** C6, as stated, fails: an occurrence of the marker after the leading one
    is deleted from the body too. *)
Lemma later_marker_not_preserved :
  contains EXTM3U (strip_leading_marker marked_playlist) = true
  /\ contains EXTM3U (body marked_playlist) = false
  /\ body marked_playlist <> strip (strip_leading_marker marked_playlist) ++ [newline; newline].
Proof. split; [|split]; by vm_compute. Qed.

(** The news source alone answers, with a playlist that names the marker
    inside an entry: the document after its turn of the loop. *)
Lemma appended_banner_and_body_witness :
  get_text (one_playlist NEWS_URL marked_playlist) NEWS_URL = Some marked_playlist
  /\ combined (fetch_source upper_ascii no_env (one_playlist NEWS_URL marked_playlist)
                (initial) (lit "news", NEWS_URL))
     = lit "#EXTM3U

# ======================================
# NEWS
# ======================================
#EXTINF:-1,All about  files
http://a.example/1

".
Proof.
  split; [by vm_compute|].
  rewrite (proj1 (appended_banner_and_body upper_ascii no_env
                    (one_playlist NEWS_URL marked_playlist) initial
                    (lit "news") NEWS_URL marked_playlist eq_refl)).
  by vm_compute.
Defined.

(** ** Step 4: the enrichment dispatcher *)

(** Lookups in an entry under construction: the keys are literals. *)
Ltac entry_lookup :=
  repeat first
    [ rewrite lookup_insert_eq
    | rewrite lookup_insert_ne by (vm_compute; discriminate)
    | rewrite lookup_singleton_eq
    | rewrite lookup_singleton_ne by (vm_compute; discriminate)
    | rewrite lookup_empty ].

Lemma enrich_lookup channel_db epg_channels cid :
  let entry := enrich channel_db epg_channels cid in
  entry !! lit "xmltv_id" = Some (JStr cid)
  /\ entry !! lit "name" = (fun c => JStr (name c)) <$> channel_db !! cid
  /\ entry !! lit "lang" = (fun c => JStr (lang c)) <$> channel_db !! cid
  /\ entry !! lit "site" = site <$> epg_channels !! KStr cid
  /\ entry !! lit "site_id" = site_id <$> epg_channels !! KStr cid.
Proof.
  unfold enrich.
  destruct (channel_db !! cid) as [c|], (epg_channels !! KStr cid) as [r|];
    cbn [fmap option_fmap option_map]; repeat split; by entry_lookup.
Qed.

(** C3: in every entry the dispatcher builds, [name] and [lang] are both
    present (the identifier is in the registry mapping) or both absent, and
    [site] and [site_id] are both present (the identifier is in the
    guide-index mapping) or both absent. *)
Theorem enriched_fields_come_in_pairs
    (ids : gset str) (channel_db : gmap str channel) (epg_channels : gmap pykey site_ref) :
  Forall (fun entry : gmap str json =>
    exists cid, cid ∈ ids
      /\ entry !! lit "xmltv_id" = Some (JStr cid)
      /\ (is_Some (channel_db !! cid)
            /\ is_Some (entry !! lit "name") /\ is_Some (entry !! lit "lang")
          \/ channel_db !! cid = None
            /\ entry !! lit "name" = None /\ entry !! lit "lang" = None)
      /\ (is_Some (epg_channels !! KStr cid)
            /\ is_Some (entry !! lit "site") /\ is_Some (entry !! lit "site_id")
          \/ epg_channels !! KStr cid = None
            /\ entry !! lit "site" = None /\ entry !! lit "site_id" = None))
    (enrich_all ids channel_db epg_channels).
Proof.
  apply Forall_forall. intros entry Hin. unfold enrich_all in Hin.
  apply list_elem_of_fmap in Hin as (cid & -> & Hcid). apply elem_of_elements in Hcid.
  exists cid. destruct (enrich_lookup channel_db epg_channels cid) as (Hx & Hn & Hl & Hs & Hi).
  rewrite Hn, Hl, Hs, Hi, !fmap_is_Some. split; [done|]. split; [done|].
  destruct (channel_db !! cid), (epg_channels !! KStr cid); naive_solver.
Qed.

(** ** Dictionaries filled by a loop *)

Section FilledByLoop.
Context `{Countable K} {A V : Type}.
Variable f : A -> option (K * V).

(** After the loop a key holds what the last element storing under it
    gave. *)
Lemma lookup_foldl_store_opt xs k v :
  foldl (store_opt f) ∅ xs !! k = Some v <->
  exists i x, xs !! i = Some x /\ f x = Some (k, v)
    /\ forall j x' v', (i < j)%nat -> xs !! j = Some x' -> f x' <> Some (k, v').
Proof.
  induction xs as [|x0 xs IH] using rev_ind.
  - simpl. rewrite lookup_empty. split; [done|]. by intros (i & x & Hi & _).
  - rewrite foldl_app. cbn [foldl]. unfold store_opt at 1.
    destruct (f x0) as [[k0 v0]|] eqn:E0.
    + destruct (decide (k0 = k)) as [->|Hk].
      * rewrite lookup_insert_eq. split.
        -- intros [= ->]. exists (length xs), x0. split; [by apply list_lookup_middle|].
           split; [done|]. intros j x' v' Hj Hl.
           apply lookup_lt_Some in Hl. rewrite length_app in Hl. simpl in Hl. lia.
        -- intros (i & x & Hi & Hf & Hlast).
           destruct (decide (i = length xs)) as [->|Hne].
           ++ rewrite list_lookup_middle in Hi by done. by simplify_eq.
           ++ exfalso. apply (Hlast (length xs) x0 v0); [|by apply list_lookup_middle|done].
              apply lookup_lt_Some in Hi. rewrite length_app in Hi. simpl in Hi. lia.
      * rewrite lookup_insert_ne by done. rewrite IH. split.
        -- intros (i & x & Hi & Hf & Hlast). exists i, x.
           split; [by apply lookup_app_l_Some|]. split; [done|].
           intros j x' v' Hj Hl. apply lookup_app_Some in Hl as [Hl|[Hlen Hl]].
           ++ by apply (Hlast j).
           ++ apply list_lookup_singleton_Some in Hl as [_ <-]. rewrite E0. congruence.
        -- intros (i & x & Hi & Hf & Hlast).
           apply lookup_app_Some in Hi as [Hi|[Hlen Hi]].
           ++ exists i, x. split; [done|]. split; [done|].
              intros j x' v' Hj Hl. apply (Hlast j); [done|]. by apply lookup_app_l_Some.
           ++ apply list_lookup_singleton_Some in Hi as [_ <-]. congruence.
    + rewrite IH. split.
      * intros (i & x & Hi & Hf & Hlast). exists i, x.
        split; [by apply lookup_app_l_Some|]. split; [done|].
        intros j x' v' Hj Hl. apply lookup_app_Some in Hl as [Hl|[Hlen Hl]].
        -- by apply (Hlast j).
        -- apply list_lookup_singleton_Some in Hl as [_ <-]. by rewrite E0.
      * intros (i & x & Hi & Hf & Hlast).
        apply lookup_app_Some in Hi as [Hi|[Hlen Hi]].
        -- exists i, x. split; [done|]. split; [done|].
           intros j x' v' Hj Hl. apply (Hlast j); [done|]. by apply lookup_app_l_Some.
        -- apply list_lookup_singleton_Some in Hi as [_ <-]. congruence.
Qed.

End FilledByLoop.

(** ** Step 3: the guide-provider index *)

Lemma index_object_binding ch : index_object ch -> index_entry ch = Some (binding ch).
Proof.
  intros (d & -> & Hd). unfold binding, index_entry.
  destruct (d !! lit "xmltv_id") as [v|] eqn:Ev; [|done].
  destruct (truthy v) eqn:Et; [|done].
  destruct (Hd v eq_refl Et) as [k ->]. done.
Qed.

Lemma binding_Some ch k r :
  binding ch = Some (k, r) <->
  exists d v, ch = JObj d /\ d !! lit "xmltv_id" = Some v /\ truthy v = true
    /\ hashable v = Some k
    /\ r = {| site := default (JStr []) (d !! lit "site");
              site_id := default (JStr []) (d !! lit "site_id") |}.
Proof.
  unfold binding, index_entry. split.
  - destruct ch as [| | | | |d]; try done.
    destruct (d !! lit "xmltv_id") as [v|] eqn:Ev; [|done].
    destruct (truthy v) eqn:Et; [|done].
    destruct (hashable v) as [k'|] eqn:Eh; [|done].
    simpl. intros [= <- <-]. by exists d, v.
  - intros (d & v & -> & -> & -> & -> & ->). done.
Qed.

Lemma index_channels_completes chs m :
  Forall index_object chs ->
  index_channels chs m = (foldl (store_opt binding) m chs, true).
Proof.
  intros Hall. revert m. induction Hall as [|ch chs Hch _ IH]; intros m; [done|].
  cbn [index_channels foldl]. rewrite (index_object_binding ch Hch).
  unfold store_opt at 2. destruct (binding ch) as [[k r]|]; apply IH.
Qed.

(** C8: for an index that is an array of objects, the loop completes and
    the mapping holds, under the [xmltv_id] of every object in which that
    field is present and non-empty (truthy), the [site] and [site_id] of
    the last such object, each replaced by the empty string when absent;
    it holds nothing else. *)
Theorem epg_channels_of_index (net : remote) (chs : list json) :
  get_json net EPG_CHANNELS_URL = Some (JArr chs) ->
  Forall index_object chs ->
  exists m, load_epg_channels net
            = (m, [EGet EPG_CHANNELS_URL; EPrint (MsgEpgChannels (size m))])
    /\ forall k r, m !! k = Some r <->
         exists i d v, chs !! i = Some (JObj d)
           /\ d !! lit "xmltv_id" = Some v /\ truthy v = true /\ hashable v = Some k
           /\ r = {| site := default (JStr []) (d !! lit "site");
                     site_id := default (JStr []) (d !! lit "site_id") |}
           /\ forall j d' v', (i < j)%nat -> chs !! j = Some (JObj d') ->
                d' !! lit "xmltv_id" = Some v' -> truthy v' = true ->
                hashable v' <> Some k.
Proof.
  intros Hget Hall. exists (foldl (store_opt binding) ∅ chs). split.
  - unfold load_epg_channels. rewrite Hget. cbn [iterate].
    by rewrite (index_channels_completes chs ∅ Hall).
  - intros k r. rewrite lookup_foldl_store_opt. split.
    + intros (i & ch & Hi & Hb & Hlast).
      apply binding_Some in Hb as (d & v & -> & Hv & Ht & Hh & ->).
      exists i, d, v. repeat (split; [done|]).
      intros j d' v' Hj Hl Hv' Ht' Hh'. eapply (Hlast j (JObj d') _ Hj Hl).
      apply binding_Some. exists d', v'. by repeat (split; [done|]).
    + intros (i & d & v & Hi & Hv & Ht & Hh & -> & Hlast).
      exists i, (JObj d). split; [done|]. split; [apply binding_Some; by exists d, v|].
      intros j ch' r' Hj Hl Hb.
      apply binding_Some in Hb as (d' & v' & -> & Hv' & Ht' & Hh' & _).
      by apply (Hlast j d' v').
Qed.

(** ** Step 2: the channel registry *)

Lemma even_quotes_quote s : even_quotes (quote :: s) = negb (even_quotes s).
Proof. done. Qed.

Lemma even_quotes_unquoted_app u s : unquoted u -> even_quotes (u ++ s) = even_quotes s.
Proof.
  induction 1 as [|c u Hc _ IH]; [done|]. cbn [app even_quotes].
  by rewrite (proj2 (N.eqb_neq c quote) Hc).
Qed.

Lemma even_quotes_app x y :
  even_quotes (x ++ y) = negb (xorb (even_quotes x) (even_quotes y)).
Proof.
  induction x as [|c x IH]; cbn [app even_quotes].
  - by destruct (even_quotes y).
  - rewrite IH. destruct (c =? quote), (even_quotes x), (even_quotes y); done.
Qed.

(** The look-ahead of the split pattern succeeds exactly when an even
    number of quotes follows. *)
Lemma lookahead_even_quotes s : lookahead s <-> even_quotes s = true.
Proof.
  split.
  - induction 1 as [u Hu|u v s Hu Hv _ IH].
    + rewrite <- (app_nil_r u). by rewrite even_quotes_unquoted_app.
    + rewrite even_quotes_unquoted_app, even_quotes_quote by done.
      rewrite even_quotes_unquoted_app, even_quotes_quote by done.
      by rewrite IH.
  - remember (length s) as n eqn:Hn. revert s Hn.
    induction n as [n IH] using lt_wf_ind. intros s -> Hev.
    destruct (span_unquoted s) as [u r] eqn:E.
    apply span_unquoted_spec in E as (-> & Hu & [->|[r' ->]]).
    { rewrite app_nil_r. by constructor. }
    rewrite even_quotes_unquoted_app, even_quotes_quote in Hev by done.
    destruct (span_unquoted r') as [v r2] eqn:E2.
    apply span_unquoted_spec in E2 as (-> & Hv & [->|[s' ->]]).
    { rewrite app_nil_r in Hev. rewrite <- (app_nil_r v) in Hev.
      by rewrite even_quotes_unquoted_app in Hev. }
    rewrite even_quotes_unquoted_app, even_quotes_quote in Hev by done.
    apply lookahead_pair; [done..|].
    apply (IH (length s')); [|done|by destruct (even_quotes s')].
    rewrite !length_app. simpl. rewrite length_app. simpl. lia.
Qed.

Lemma re_split_csv_cons c t :
  re_split_csv (c :: t) =
  if (c =? comma) && even_quotes t then [] :: re_split_csv t
  else match re_split_csv t with
       | [] => [[c]]
       | f :: fs => (c :: f) :: fs
       end.
Proof. done. Qed.

Lemma re_split_csv_nonempty s : re_split_csv s <> [].
Proof.
  destruct s as [|c t]; [done|]. rewrite re_split_csv_cons.
  destruct ((c =? comma) && even_quotes t); [done|]. by destruct (re_split_csv t).
Qed.

Lemma join_cons sep f g fs : join sep (f :: g :: fs) = f ++ sep :: join sep (g :: fs).
Proof. done. Qed.

Lemma join_cons_head sep c f fs : join sep ((c :: f) :: fs) = c :: join sep (f :: fs).
Proof. by destruct fs. Qed.

(** The fields and the commas between them make up the line. *)
Lemma join_re_split_csv s : join comma (re_split_csv s) = s.
Proof.
  induction s as [|c t IH]; [done|]. rewrite re_split_csv_cons.
  destruct ((c =? comma) && even_quotes t) eqn:E.
  - apply andb_true_iff in E as [->%N.eqb_eq _].
    pose proof (re_split_csv_nonempty t) as Hne.
    destruct (re_split_csv t) as [|f fs]; [done|]. rewrite join_cons. cbn [app]. by f_equal.
  - pose proof (re_split_csv_nonempty t) as Hne.
    destruct (re_split_csv t) as [|f fs]; [done|]. rewrite join_cons_head. by f_equal.
Qed.

(** A comma followed by an even number of quotes ends a field. *)
Lemma re_split_csv_app a b :
  even_quotes b = true ->
  re_split_csv (a ++ comma :: b) = re_split_csv a ++ re_split_csv b.
Proof.
  intros Hb. induction a as [|c a IH].
  - cbn [app]. rewrite re_split_csv_cons, Hb. done.
  - cbn [app]. rewrite !re_split_csv_cons, IH.
    assert (E : even_quotes (a ++ comma :: b) = even_quotes a).
    { rewrite even_quotes_app. cbn [even_quotes]. change (comma =? quote) with false.
      cbv iota. rewrite Hb. by destruct (even_quotes a). }
    rewrite E. destruct ((c =? comma) && even_quotes a); [done|].
    pose proof (re_split_csv_nonempty a) as Hne.
    by destruct (re_split_csv a).
Qed.

(** A comma followed by an odd number of quotes stays inside its field. *)
Lemma re_split_csv_inside a b :
  even_quotes b = false ->
  exists pre f g post,
    re_split_csv (a ++ comma :: b) = pre ++ (f ++ comma :: g) :: post
    /\ join comma (pre ++ [f]) = a /\ join comma (g :: post) = b.
Proof.
  intros Hb. induction a as [|c a (pre & f & g & post & E & Ja & Jb)].
  - cbn [app]. rewrite re_split_csv_cons, Hb, andb_false_r.
    pose proof (re_split_csv_nonempty b) as Hne.
    pose proof (join_re_split_csv b) as Hj.
    destruct (re_split_csv b) as [|g post]; [done|].
    by exists [], [], g, post.
  - cbn [app]. rewrite re_split_csv_cons, E.
    destruct ((c =? comma) && even_quotes (a ++ comma :: b)) eqn:Ec.
    + apply andb_true_iff in Ec as [->%N.eqb_eq _].
      exists ([] :: pre), f, g, post. split; [done|]. split; [|done].
      cbn [app]. destruct pre; cbn [app] in *; rewrite join_cons; cbn [app]; by f_equal.
    + destruct pre as [|p pre]; cbn [app] in *.
      * exists [], (c :: f), g, post. split; [done|]. split; [|done]. simpl in *. by f_equal.
      * exists ((c :: p) :: pre), f, g, post. split; [done|]. split; [|done].
        cbn [app]. rewrite join_cons_head. by f_equal.
Qed.

Lemma re_split_csv_no_comma m : comma ∉ m -> re_split_csv m = [m].
Proof.
  induction m as [|c m IH]; intros Hm; [done|].
  apply not_elem_of_cons in Hm as [Hc Hm]. rewrite re_split_csv_cons, (IH Hm).
  assert (E : (c =? comma) = false) by (apply N.eqb_neq; congruence).
  by rewrite E.
Qed.

(** The first piece of [s.split(sep)] is the text before the first
    separator. *)
Lemma hd_split sep s :
  (sep ∉ hd [] (split sep s))
  /\ (s = hd [] (split sep s) \/ exists r, s = hd [] (split sep s) ++ sep :: r).
Proof.
  induction s as [|c s [IH1 IH2]]; cbn [split].
  - split; [apply not_elem_of_nil|by left].
  - destruct (c =? sep) eqn:E.
    + apply N.eqb_eq in E as ->. split; [apply not_elem_of_nil|]. right. by exists s.
    + apply N.eqb_neq in E. destruct (split sep s) as [|f fs]; cbn [hd] in *.
      * split; [|destruct IH2 as [->|[r ->]]; [by left|right; by exists r]].
        apply not_elem_of_cons. split; [congruence|done].
      * split; [apply not_elem_of_cons; split; [congruence|done]|].
        destruct IH2 as [->|[r ->]]; [by left|right; by exists r].
Qed.

Lemma parse_record_cases line :
  let fields := re_split_csv line in
  let ch_id := strip_quotes (strip (fields !!! 0%nat)) in
  ((length fields < 7)%nat -> parse_record line = None)
  /\ (ch_id = [] -> parse_record line = None)
  /\ ((7 <= length fields)%nat -> ch_id <> [] ->
       parse_record line
       = Some (ch_id,
               {| name := strip_quotes (strip (fields !!! 1%nat));
                  lang := strip (hd [] (split semicolon
                                   (strip_quotes (strip (fields !!! 6%nat))))) |})).
Proof.
  intros fields ch_id. unfold parse_record. fold fields. fold ch_id.
  destruct (7 <=? length fields)%nat eqn:E.
  - apply Nat.leb_le in E. split; [lia|]. split.
    + by intros ->.
    + intros _ Hne. by destruct ch_id.
  - apply Nat.leb_gt in E. split; [done|]. split; [done|]. lia.
Qed.

Lemma even_quotes_field f rest :
  even_quotes f = true -> even_quotes (f ++ comma :: rest) = even_quotes rest.
Proof.
  intros Hf. rewrite even_quotes_app, Hf. cbn [even_quotes].
  change (comma =? quote) with false. cbv iota. by destruct (even_quotes rest).
Qed.

Lemma even_quotes_plain m : plain m -> even_quotes m = true.
Proof.
  intros [_ Hm]. rewrite <- (app_nil_r m). by rewrite even_quotes_unquoted_app.
Qed.

Lemma demo_record_fields m2 m3 m4 m5 :
  plain m2 -> plain m3 -> plain m4 -> plain m5 ->
  re_split_csv (demo_record m2 m3 m4 m5)
  = [lit "id1"; quoted (lit "Demo, Channel"); m2; m3; m4; m5; quoted (lit "en;fr")].
Proof.
  intros P2 P3 P4 P5. unfold demo_record.
  assert (S1 : re_split_csv (quoted (lit "Demo, Channel")) = [quoted (lit "Demo, Channel")])
    by done.
  assert (S6 : re_split_csv (quoted (lit "en;fr")) = [quoted (lit "en;fr")]) by done.
  assert (E1 : even_quotes (quoted (lit "Demo, Channel")) = true) by done.
  assert (E6 : even_quotes (quoted (lit "en;fr")) = true) by done.
  generalize dependent (quoted (lit "Demo, Channel")). intros q1 S1 E1.
  generalize dependent (quoted (lit "en;fr")). intros q6 S6 E6.
  rewrite !re_split_csv_app; rewrite ?even_quotes_field; auto using even_quotes_plain.
  rewrite S1, S6, !re_split_csv_no_comma; [done|by destruct P5|by destruct P4|
    by destruct P3|by destruct P2|].
  apply (bool_decide_unpack _). by vm_compute.
Qed.

Lemma parse_channel_db_lookup text k c :
  parse_channel_db text !! k = Some c <->
  exists i line,
    drop 1 (split newline (strip text)) !! i = Some line
    /\ parse_record line = Some (k, c)
    /\ forall j line' c', (i < j)%nat ->
         drop 1 (split newline (strip text)) !! j = Some line' ->
         parse_record line' <> Some (k, c').
Proof. apply (lookup_foldl_store_opt parse_record). Qed.

Lemma demo_record_parsed m2 m3 m4 m5 :
  plain m2 -> plain m3 -> plain m4 -> plain m5 ->
  parse_record (demo_record m2 m3 m4 m5)
  = Some (lit "id1", {| name := lit "Demo, Channel"; lang := lit "en" |}).
Proof.
  intros P2 P3 P4 P5. unfold parse_record.
  rewrite (demo_record_fields m2 m3 m4 m5) by done. by vm_compute.
Qed.

(** C4: the resolver passes over the first line of the stripped text; a
    later line counts when it has at least 7 fields and a non-empty
    identifier, and the mapping gives an identifier (field 0) the display
    name (field 1) and the text of field 6 before the first semicolon of the
    last such line, each stripped of whitespace and of surrounding quotes.
    The line is cut at the commas followed by an even number of quotes up to
    its end, which in a line with balanced quotes are the commas outside the
    quoted fields, and only there.  The record of the scenario gives the
    name [Demo, Channel] and the language [en]. *)
Theorem registry_resolver :
  (forall text k c,
     parse_channel_db text !! k = Some c <->
     exists i line,
       drop 1 (split newline (strip text)) !! i = Some line
       /\ parse_record line = Some (k, c)
       /\ forall j line' c', (i < j)%nat ->
            drop 1 (split newline (strip text)) !! j = Some line' ->
            parse_record line' <> Some (k, c'))
  /\ (forall line,
        let fields := re_split_csv line in
        let ch_id := strip_quotes (strip (fields !!! 0%nat)) in
        ((length fields < 7)%nat -> parse_record line = None)
        /\ (ch_id = [] -> parse_record line = None)
        /\ ((7 <= length fields)%nat -> ch_id <> [] ->
             parse_record line
             = Some (ch_id,
                     {| name := strip_quotes (strip (fields !!! 1%nat));
                        lang := strip (hd [] (split semicolon
                                         (strip_quotes (strip (fields !!! 6%nat))))) |})))
  /\ (forall s,
        (semicolon ∉ hd [] (split semicolon s))
        /\ (s = hd [] (split semicolon s)
            \/ exists r, s = hd [] (split semicolon s) ++ semicolon :: r))
  /\ (forall line, join comma (re_split_csv line) = line)
  /\ (forall a b, even_quotes b = true ->
        re_split_csv (a ++ comma :: b) = re_split_csv a ++ re_split_csv b)
  /\ (forall a b, even_quotes b = false ->
        exists pre f g post,
          re_split_csv (a ++ comma :: b) = pre ++ (f ++ comma :: g) :: post
          /\ join comma (pre ++ [f]) = a /\ join comma (g :: post) = b)
  /\ (forall s, lookahead s <-> even_quotes s = true)
  /\ (forall a b, even_quotes (a ++ comma :: b) = true -> even_quotes a = even_quotes b)
  /\ (forall m2 m3 m4 m5, plain m2 -> plain m3 -> plain m4 -> plain m5 ->
        parse_record (demo_record m2 m3 m4 m5)
        = Some (lit "id1", {| name := lit "Demo, Channel"; lang := lit "en" |})).
Proof.
  split; [apply parse_channel_db_lookup|].
  split; [apply parse_record_cases|].
  split; [apply hd_split|].
  split; [apply join_re_split_csv|].
  split; [apply re_split_csv_app|].
  split; [apply re_split_csv_inside|].
  split; [apply lookahead_even_quotes|].
  split; [|apply demo_record_parsed].
  intros a b. rewrite even_quotes_app. cbn [even_quotes].
  change (comma =? quote) with false. cbv iota.
  by destruct (even_quotes a), (even_quotes b).
Qed.

(** ** The run as a whole *)

Lemma written_bytes_app path tr1 tr2 :
  written_bytes path (tr1 ++ tr2)
  = match written_bytes path tr2 with
    | Some d => Some d
    | None => written_bytes path tr1
    end.
Proof.
  unfold written_bytes. rewrite foldl_app.
  generalize (foldl (fun acc e => match e with
                                  | EWriteBytes p d => if bool_decide (p = path) then Some d else acc
                                  | _ => acc
                                  end) None tr1).
  induction tr2 as [|e tr2 IH] using rev_ind; intros acc; [done|].
  rewrite !foldl_app. cbn [foldl]. destruct e; try apply IH. by case_bool_decide.
Qed.

Lemma written_bytes_quiet path tr1 :
  Forall (fun e => dispatch_effect e = false) tr1 -> written_bytes path tr1 = None.
Proof.
  induction tr1 as [|e tr1 IH] using rev_ind; [done|].
  intros [H1 H2]%Forall_app. unfold written_bytes in *. rewrite foldl_app. cbn [foldl].
  apply Forall_inv in H2. destruct e; try done; by apply IH.
Qed.

Lemma written_text_app path tr1 tr2 :
  written_text path (tr1 ++ tr2)
  = match written_text path tr2 with
    | Some d => Some d
    | None => written_text path tr1
    end.
Proof.
  unfold written_text. rewrite foldl_app.
  generalize (foldl (fun acc e => match e with
                                  | EWriteText p t => if bool_decide (p = path) then Some t else acc
                                  | EWriteFailed p => if bool_decide (p = path) then Some [] else acc
                                  | _ => acc
                                  end) None tr1).
  induction tr2 as [|e tr2 IH] using rev_ind; intros acc; [done|].
  rewrite !foldl_app. cbn [foldl]. destruct e; try apply IH; by case_bool_decide.
Qed.

Lemma written_text_none path tr1 :
  Forall keeps_text tr1 -> written_text path tr1 = None.
Proof.
  induction tr1 as [|e tr1 IH] using rev_ind; [done|].
  intros [H1 H2]%Forall_app. unfold written_text in *. rewrite foldl_app. cbn [foldl].
  apply Forall_inv in H2. destruct e; try done; by apply IH.
Qed.

Lemma gets_app tr1 tr2 : gets (tr1 ++ tr2) = gets tr1 ++ gets tr2.
Proof. apply omap_app. Qed.

(** The loop over an index that fails stopped at its first element the
    body cannot handle, with what the elements before it had stored. *)
Lemma index_channels_failed chs m m' :
  index_channels chs m = (m', false) ->
  exists good bad rest,
    chs = good ++ bad :: rest
    /\ index_entry bad = None
    /\ Forall (fun ch => index_entry ch <> None) good
    /\ m' = foldl (store_opt binding) m good.
Proof.
  revert m; induction chs as [|ch chs IH]; intros m; cbn [index_channels]; [done|].
  destruct (index_entry ch) as [o|] eqn:E.
  - assert (Hstep : store_opt binding m ch
                    = match o with Some (k, v) => <[k := v]> m | None => m end).
    { unfold store_opt, binding. by rewrite E. }
    intros H.
    assert (H' : index_channels chs (store_opt binding m ch) = (m', false)).
    { rewrite Hstep. by destruct o as [[k v]|]. }
    destruct (IH _ H') as (good & bad & rest & -> & Hbad & Hgood & ->).
    exists (ch :: good), bad, rest. split; [done|]. split; [done|].
    split; [|done]. constructor; [by rewrite E|done].
  - intros [= <-]. by exists [], ch, chs.
Qed.

Section Run.
Variable upper : str -> str.
Variable gzip_compress : list byte -> list byte.
Variable decode_content : str -> list byte -> option (list byte).
Variable env : environ.
Variable net : remote.

Let st : playlists := fetch_playlists upper env net.
Let tr : list event := main upper gzip_compress decode_content env net.

(** The run when line 48 has not raised: every stage, one after the
    other. *)
Lemma main_stages :
  utf8_encodable (combined st) = true ->
  tr = (fetch_trace st
        ++ [EWriteText PLAYLIST_PATH (combined st);
            EPrint (MsgPlaylist (total_channels (totals st)) (size (channel_ids st)))])
       ++ (load_channel_db net).2 ++ (load_epg_channels net).2
       ++ dispatch gzip_compress decode_content env net (channel_ids st)
            (load_channel_db net).1 (load_epg_channels net).1
       ++ [EPrint MsgDone].
Proof.
  intros H. unfold tr, main, step1. fold st. rewrite H.
  by destruct (load_channel_db net), (load_epg_channels net).
Qed.

(** The run when it has: it ends with the failed write. *)
Lemma main_aborted :
  utf8_encodable (combined st) = false ->
  tr = fetch_trace st ++ [EWriteFailed PLAYLIST_PATH].
Proof. intros H. unfold tr, main, step1. fold st. by rewrite H. Qed.

Lemma fetch_trace_foldl srcs s0 :
  Forall (fun e => dispatch_effect e = false) (fetch_trace s0) ->
  Forall (fun e => dispatch_effect e = false)
    (fetch_trace (foldl (fetch_source upper env net) s0 srcs)).
Proof.
  revert s0; induction srcs as [|[label url] srcs IH]; intros s0 H0; [done|].
  cbn [foldl]. apply IH. unfold fetch_source.
  destruct (get_text net url); cbn [fetch_trace]; apply Forall_app; split; try done;
    by repeat constructor.
Qed.

Lemma fetch_trace_quiet : Forall (fun e => dispatch_effect e = false) (fetch_trace st).
Proof. apply fetch_trace_foldl. constructor. Qed.

Lemma load_channel_db_quiet :
  Forall (fun e => dispatch_effect e = false) (load_channel_db net).2.
Proof.
  unfold load_channel_db. destruct (get_text net CHANNELS_CSV_URL); by repeat constructor.
Qed.

Lemma load_epg_channels_quiet :
  Forall (fun e => dispatch_effect e = false) (load_epg_channels net).2.
Proof.
  unfold load_epg_channels. destruct (get_json net EPG_CHANNELS_URL) as [v|];
    [|by repeat constructor].
  destruct (iterate v) as [chs|]; [|by repeat constructor].
  destruct (index_channels chs ∅) as [m completed]. by repeat constructor.
Qed.

Lemma load_channel_db_keeps_text : Forall keeps_text (load_channel_db net).2.
Proof.
  unfold load_channel_db. destruct (get_text net CHANNELS_CSV_URL); by repeat constructor.
Qed.

Lemma load_epg_channels_keeps_text : Forall keeps_text (load_epg_channels net).2.
Proof.
  unfold load_epg_channels. destruct (get_json net EPG_CHANNELS_URL) as [v|];
    [|by repeat constructor].
  destruct (iterate v) as [chs|]; [|by repeat constructor].
  destruct (index_channels chs ∅) as [m completed]. by repeat constructor.
Qed.

Lemma dispatch_keeps_text ids db epg :
  Forall keeps_text (dispatch gzip_compress decode_content env net ids db epg).
Proof.
  unfold dispatch. destruct (EPG_FETCHER_URL env); [by repeat constructor|].
  case_bool_decide; [by repeat constructor|].
  repeat (constructor; [done|]).
  match goal with |- context [post_json ?n ?u ?r] => destruct (post_json n u r) as [resp|] end;
    [|by repeat constructor].
  destruct (resp_content decode_content resp); by repeat constructor.
Qed.

(** The playlist file holds the combined document when the write of line
    48 has not raised, whatever failed before or fails after. *)
Lemma playlist_written :
  utf8_encodable (combined st) = true ->
  written_text PLAYLIST_PATH tr = Some (combined st).
Proof.
  intros Henc. rewrite (main_stages Henc), <- !app_assoc. cbn [app].
  rewrite written_text_app.
  change (EWriteText PLAYLIST_PATH (combined st) :: ?l)
    with ([EWriteText PLAYLIST_PATH (combined st)] ++ l).
  rewrite written_text_app, written_text_none.
  - unfold written_text. cbn [foldl]. by rewrite bool_decide_eq_true_2.
  - constructor; [done|]. repeat (apply Forall_app; split);
      auto using load_channel_db_keeps_text, load_epg_channels_keeps_text,
        dispatch_keeps_text.
    by repeat constructor.
Qed.

(** It is left empty when the write has raised. *)
Lemma playlist_emptied :
  utf8_encodable (combined st) = false ->
  written_text PLAYLIST_PATH tr = Some [].
Proof.
  intros Henc. rewrite (main_aborted Henc), written_text_app.
  unfold written_text at 1. cbn [foldl]. by rewrite bool_decide_eq_true_2.
Qed.

(** Before the dispatch stage nothing is sent to the enrichment service and
    no guide data is written. *)
Lemma before_dispatch_quiet :
  Forall (fun e => dispatch_effect e = false)
    ((fetch_trace st
      ++ [EWriteText PLAYLIST_PATH (combined st);
          EPrint (MsgPlaylist (total_channels (totals st)) (size (channel_ids st)))])
     ++ (load_channel_db net).2 ++ (load_epg_channels net).2).
Proof.
  repeat (apply Forall_app; split);
    auto using fetch_trace_quiet, load_channel_db_quiet, load_epg_channels_quiet;
    by repeat constructor.
Qed.

Lemma aborted_quiet :
  Forall (fun e => dispatch_effect e = false) (fetch_trace st ++ [EWriteFailed PLAYLIST_PATH]).
Proof. apply Forall_app; split; [apply fetch_trace_quiet|by repeat constructor]. Qed.

(** The guide data of a run are those of its dispatch stage, if it gets
    there. *)
Lemma written_bytes_main :
  written_bytes EPG_PATH tr
  = if utf8_encodable (combined st)
    then written_bytes EPG_PATH
           (dispatch gzip_compress decode_content env net (channel_ids st)
              (load_channel_db net).1 (load_epg_channels net).1)
    else None.
Proof.
  destruct (utf8_encodable (combined st)) eqn:Henc.
  - rewrite (main_stages Henc), !app_assoc, written_bytes_app.
    change (written_bytes EPG_PATH [EPrint MsgDone]) with (@None (list byte)). cbv iota.
    rewrite written_bytes_app.
    destruct (written_bytes EPG_PATH
                (dispatch gzip_compress decode_content env net (channel_ids st)
                   (load_channel_db net).1 (load_epg_channels net).1)); [done|].
    apply written_bytes_quiet. rewrite <- app_assoc. apply before_dispatch_quiet.
  - rewrite (main_aborted Henc). apply written_bytes_quiet, aborted_quiet.
Qed.

(** What the dispatch stage does once the service has answered and the
    answer's body could be decoded. *)
Lemma dispatch_answered resp content :
  EPG_FETCHER_URL env <> [] ->
  channel_ids st <> ∅ ->
  post_json net (EPG_FETCHER_URL env) (posted_request env net upper) = Some resp ->
  resp_content decode_content resp = Some content ->
  written_bytes EPG_PATH
    (dispatch gzip_compress decode_content env net (channel_ids st)
       (load_channel_db net).1 (load_epg_channels net).1)
  = Some (epg_bytes gzip_compress resp content).
Proof.
  intros Hurl Hids Hpost Hcontent. unfold st in *. unfold dispatch.
  destruct (EPG_FETCHER_URL env) as [|c u] eqn:Eu; [done|].
  rewrite bool_decide_eq_false_2 by done.
  fold (posted_request env net upper). rewrite Hpost, Hcontent.
  unfold written_bytes. cbn [app foldl]. by rewrite bool_decide_eq_true_2.
Qed.

(** C7: when the endpoint is absent (the variable reads as the empty
    string) or the identifier set is empty, the dispatch stage only prints
    its reason, a different one in each case; the run calls no enrichment
    service and writes no guide data.  The playlist file is written all
    the same, before anything the dispatch stage does, in every run in
    which the write of line 48 succeeds; a run in which it raises ends
    there, before the dispatch stage. *)
Theorem dispatch_skipped :
  env_EPG_FETCHER_URL env = None \/ env_EPG_FETCHER_URL env = Some []
  \/ channel_ids st = ∅ ->
  let reason := match EPG_FETCHER_URL env with
                | [] => MsgNoFetcherUrl
                | _ :: _ => MsgNoChannelIds
                end in
  dispatch gzip_compress decode_content env net (channel_ids st)
    (load_channel_db net).1 (load_epg_channels net).1
  = [EPrint reason]
  /\ MsgNoFetcherUrl <> MsgNoChannelIds
  /\ Forall (fun e => dispatch_effect e = false) tr
  /\ written_bytes EPG_PATH tr = None
  /\ (utf8_encodable (combined st) = true ->
        written_text PLAYLIST_PATH tr = Some (combined st)
        /\ exists between,
             tr = fetch_trace st ++ EWriteText PLAYLIST_PATH (combined st) :: between
                  ++ [EPrint reason; EPrint MsgDone]
             /\ Forall (fun e => dispatch_effect e = false) (fetch_trace st))
  /\ (utf8_encodable (combined st) = false ->
        tr = fetch_trace st ++ [EWriteFailed PLAYLIST_PATH]
        /\ written_text PLAYLIST_PATH tr = Some []).
Proof.
  intros Hskip0 reason.
  assert (Hskip : EPG_FETCHER_URL env = [] \/ channel_ids st = ∅).
  { unfold EPG_FETCHER_URL. destruct Hskip0 as [->|[->|?]]; auto. }
  clear Hskip0.
  assert (Hd : dispatch gzip_compress decode_content env net (channel_ids st)
                 (load_channel_db net).1 (load_epg_channels net).1
               = [EPrint reason]).
  { unfold dispatch, reason. destruct (EPG_FETCHER_URL env) as [|c u]; [done|].
    destruct Hskip as [|Hids]; [done|]. by rewrite bool_decide_eq_true_2. }
  assert (Hquiet : Forall (fun e => dispatch_effect e = false) tr).
  { destruct (utf8_encodable (combined st)) eqn:Henc.
    - rewrite (main_stages Henc), Hd.
      repeat (apply Forall_app; split);
        auto using fetch_trace_quiet, load_channel_db_quiet, load_epg_channels_quiet;
        by repeat constructor.
    - rewrite (main_aborted Henc). apply aborted_quiet. }
  split; [done|]. split; [done|]. split; [done|].
  split; [by apply written_bytes_quiet|]. split.
  - intros Henc. split; [by apply playlist_written|].
    exists (EPrint (MsgPlaylist (total_channels (totals st)) (size (channel_ids st)))
            :: (load_channel_db net).2 ++ (load_epg_channels net).2).
    split; [|apply fetch_trace_quiet].
    rewrite (main_stages Henc), Hd, <- !app_assoc. cbn [app].
    rewrite <- !app_assoc. reflexivity.
  - intros Henc. split; [by apply main_aborted|by apply playlist_emptied].
Qed.

Lemma gets_foldl srcs s0 :
  gets (fetch_trace (foldl (fetch_source upper env net) s0 srcs))
  = gets (fetch_trace s0) ++ srcs.*2.
Proof.
  revert s0; induction srcs as [|[label url] srcs IH]; intros s0; cbn [foldl].
  - by rewrite app_nil_r.
  - rewrite IH. unfold fetch_source.
    destruct (get_text net url); cbn [fetch_trace]; rewrite gets_app, <- app_assoc; done.
Qed.

Lemma all_sources_tried : gets (fetch_trace st) = (SOURCES (COUNTRY_CODE env)).*2.
Proof. unfold st, fetch_playlists. by rewrite gets_foldl. Qed.

Lemma totals_fetch_source s0 label url :
  totals (fetch_source upper env net s0 (label, url)) = <[label := recorded net url]> (totals s0).
Proof. unfold fetch_source, recorded. by destruct (get_text net url). Qed.

Lemma totals_foldl_other srcs s0 label :
  label ∉ srcs.*1 ->
  totals (foldl (fetch_source upper env net) s0 srcs) !! label = totals s0 !! label.
Proof.
  revert s0; induction srcs as [|[l0 u0] srcs IH]; intros s0 Hl; [done|].
  cbn [foldl]. rewrite fmap_cons in Hl. apply not_elem_of_cons in Hl as [Hne Hl].
  rewrite (IH _ Hl), totals_fetch_source. by rewrite lookup_insert_ne.
Qed.

Lemma totals_foldl srcs s0 label url :
  NoDup srcs.*1 -> (label, url) ∈ srcs ->
  totals (foldl (fetch_source upper env net) s0 srcs) !! label = Some (recorded net url).
Proof.
  revert s0; induction srcs as [|[l0 u0] srcs IH]; intros s0 Hnd Hin.
  - by apply elem_of_nil in Hin.
  - rewrite fmap_cons in Hnd. apply NoDup_cons in Hnd as [Hl0 Hnd]. cbn [foldl].
    apply elem_of_cons in Hin as [[= -> ->]|Hin].
    + rewrite (totals_foldl_other _ _ _ Hl0), totals_fetch_source.
      by rewrite lookup_insert_eq.
    + by apply IH.
Qed.

Lemma totals_recorded label url :
  (label, url) ∈ SOURCES (COUNTRY_CODE env) ->
  totals st !! label = Some (recorded net url).
Proof.
  intros Hin. apply totals_foldl; [|done].
  change ((SOURCES (COUNTRY_CODE env)).*1)
    with [lit "country"; lit "news"; lit "movies"; lit "sports"].
  apply (bool_decide_unpack _). by vm_compute.
Qed.

Lemma index_channels_of_strings (chs : list json) m :
  Forall (fun ch => exists s, ch = JStr s) chs -> (index_channels chs m).1 = m.
Proof. intros H. destruct H as [|ch chs [s ->] _]; done. Qed.

(** With no source fetched the document is the format header. *)
Lemma combined_nothing_fetched :
  (forall src, src ∈ SOURCES (COUNTRY_CODE env) -> get_text net src.2 = None) ->
  combined st = EXTM3U ++ [newline; newline].
Proof.
  intros Hdead. unfold st, fetch_playlists. rewrite combined_foldl.
  assert (E : forall srcs, (forall src, src ∈ srcs -> get_text net src.2 = None) ->
                concat (map (section_of env net upper) srcs) = []).
  { induction srcs as [|src srcs IH]; intros H; [done|]. cbn [map concat].
    unfold section_of at 1. rewrite (H src) by (apply elem_of_cons; by left).
    apply IH. intros src' Hin. apply H. apply elem_of_cons. by right. }
  rewrite (E _ Hdead). cbn [combined initial]. by rewrite app_nil_r.
Qed.

(** C9, as amended: a failed playlist fetch leaves the combined document
    and the identifier set as they were and records the count 0 for its
    label; the loop goes on and tries every source.  A failed load of the
    registry leaves that mapping empty.  A failed load of the guide index
    leaves its mapping empty when the remote call or the decoding fails or
    the decoded value cannot be iterated; when the loop over the decoded
    elements fails, it stopped at the first element its body cannot handle
    and the mapping keeps what the elements before that one stored.  Each
    mapping depends on its own call only.  Downstream, the run goes through
    all its stages to the end whenever line 48 could write the playlist,
    which no failed call can prevent. *)
Theorem failures_recovered_locally :
  (forall s0 label url, get_text net url = None ->
     combined (fetch_source upper env net s0 (label, url)) = combined s0
     /\ channel_ids (fetch_source upper env net s0 (label, url)) = channel_ids s0
     /\ totals (fetch_source upper env net s0 (label, url)) = <[label := 0%nat]> (totals s0))
  /\ gets (fetch_trace st) = (SOURCES (COUNTRY_CODE env)).*2
  /\ (forall label url, (label, url) ∈ SOURCES (COUNTRY_CODE env) ->
        get_text net url = None -> totals st !! label = Some 0%nat)
  /\ (get_text net CHANNELS_CSV_URL = None ->
        load_channel_db net = (∅, [EGet CHANNELS_CSV_URL; EPrint MsgChannelDbFailed]))
  /\ ((load_channel_db net).2 = [EGet CHANNELS_CSV_URL; EPrint MsgChannelDbFailed] ->
        (load_channel_db net).1 = ∅)
  /\ (get_json net EPG_CHANNELS_URL = None ->
        load_epg_channels net = (∅, [EGet EPG_CHANNELS_URL; EPrint MsgEpgChannelsFailed]))
  /\ (forall v, get_json net EPG_CHANNELS_URL = Some v -> iterate v = None ->
        load_epg_channels net = (∅, [EGet EPG_CHANNELS_URL; EPrint MsgEpgChannelsFailed]))
  /\ (forall v chs, get_json net EPG_CHANNELS_URL = Some v -> iterate v = Some chs ->
        (load_epg_channels net).2 = [EGet EPG_CHANNELS_URL; EPrint MsgEpgChannelsFailed] ->
        exists good bad rest,
          chs = good ++ bad :: rest
          /\ index_entry bad = None
          /\ Forall (fun ch => index_entry ch <> None) good
          /\ (load_epg_channels net).1 = foldl (store_opt binding) ∅ good)
  /\ (forall net', get_json net' EPG_CHANNELS_URL = get_json net EPG_CHANNELS_URL ->
        load_epg_channels net' = load_epg_channels net)
  /\ (forall net', get_text net' CHANNELS_CSV_URL = get_text net CHANNELS_CSV_URL ->
        load_channel_db net' = load_channel_db net)
  /\ (utf8_encodable (combined st) = true ->
        tr = (fetch_trace st
              ++ [EWriteText PLAYLIST_PATH (combined st);
                  EPrint (MsgPlaylist (total_channels (totals st)) (size (channel_ids st)))])
             ++ (load_channel_db net).2 ++ (load_epg_channels net).2
             ++ dispatch gzip_compress decode_content env net (channel_ids st)
                  (load_channel_db net).1 (load_epg_channels net).1
             ++ [EPrint MsgDone])
  /\ ((forall src, src ∈ SOURCES (COUNTRY_CODE env) -> get_text net src.2 = None) ->
        utf8_encodable (combined st) = true).
Proof.
  split.
  { intros s0 label url Hget. unfold fetch_source. by rewrite Hget. }
  split; [apply all_sources_tried|]. split.
  { intros label url Hin Hget. rewrite (totals_recorded label url Hin).
    unfold recorded. by rewrite Hget. }
  split.
  { intros Hget. unfold load_channel_db. by rewrite Hget. }
  split.
  { unfold load_channel_db. by destruct (get_text net CHANNELS_CSV_URL). }
  split.
  { intros Hget. unfold load_epg_channels. by rewrite Hget. }
  split.
  { intros v Hget Hit. unfold load_epg_channels. by rewrite Hget, Hit. }
  split.
  { intros v chs Hget Hit. unfold load_epg_channels. rewrite Hget, Hit.
    destruct (index_channels chs ∅) as [m completed] eqn:E. cbn [fst snd].
    destruct completed; [discriminate|]. intros _.
    by apply index_channels_failed. }
  split.
  { intros net' E. unfold load_epg_channels. by rewrite E. }
  split.
  { intros net' E. unfold load_channel_db. by rewrite E. }
  split; [apply main_stages|].
  intros Hdead. by rewrite (combined_nothing_fetched Hdead).
Qed.

End Run.

(** ** The guide data on disk *)

Section GuideData.
Variable upper : str -> str.
Variable gzip_compress : list byte -> list byte.
Variable decode_content : str -> list byte -> option (list byte).
Variable env : environ.
Variable net : remote.

Let st : playlists := fetch_playlists upper env net.
Let tr : list event := main upper gzip_compress decode_content env net.

(** C2 fails on the code for an answer sent under Content-Encoding gzip:
    requests has unpacked the body by the time the script sees it, line
    124 finds gzip in the header, and line 125 stores what it was handed.
    The guide file then holds the unpacked data, not the response body. *)
Theorem encoded_answer_stored_decoded (resp : response) (content : list byte) :
  utf8_encodable (combined st) = true ->
  EPG_FETCHER_URL env <> [] ->
  channel_ids st <> ∅ ->
  post_json net (EPG_FETCHER_URL env) (posted_request env net upper) = Some resp ->
  resp_header resp (lit "Content-Encoding") = Some (lit "gzip") ->
  decode_content (lit "gzip") (resp_body resp) = Some content ->
  written_bytes EPG_PATH tr = Some content.
Proof.
  intros Henc Hurl Hids Hpost Hce Hdec.
  assert (Hcontent : resp_content decode_content resp = Some content).
  { unfold resp_content. by rewrite Hce. }
  unfold tr. rewrite written_bytes_main. fold st. rewrite Henc.
  unfold st. rewrite (dispatch_answered _ _ _ _ _ resp content Hurl Hids Hpost Hcontent).
  unfold epg_bytes, declared_gzip. by rewrite Hce.
Qed.

End GuideData.

(** ** The claims at concrete inputs *)

(** The stand-in codec meets the contract asked of gzip. *)
Lemma frame_round_trip data : unframe (frame data) = Some data.
Proof. done. Qed.

Lemma guide_net_ids resp :
  channel_ids (fetch_playlists upper_ascii fetcher_env (guide_net resp)) <> ∅.
Proof. intros E. apply (f_equal elements) in E. vm_compute in E. discriminate. Qed.

Lemma guide_net_encodable resp :
  utf8_encodable (combined (fetch_playlists upper_ascii fetcher_env (guide_net resp))) = true.
Proof. by vm_compute. Qed.

(** A run in which the service sends the guide compressed, under
    Content-Encoding gzip: the file holds the five bytes of the XML, which
    are not the body that was sent and do not unpack. *)
Lemma encoded_answer_stored_decoded_witness :
  let tr := main upper_ascii frame decode_frame fetcher_env (guide_net gzip_response) in
  resp_header gzip_response (lit "Content-Encoding") = Some (lit "gzip")
  /\ declared_gzip gzip_response = true
  /\ written_bytes EPG_PATH tr = Some [x3c; x74; x76; x2f; x3e]
  /\ written_bytes EPG_PATH tr <> Some (resp_body gzip_response)
  /\ unframe [x3c; x74; x76; x2f; x3e] = None.
Proof.
  intros tr.
  assert (Hce : resp_header gzip_response (lit "Content-Encoding") = Some (lit "gzip"))
    by by vm_compute.
  assert (Hpost : post_json (guide_net gzip_response) (EPG_FETCHER_URL fetcher_env)
                    (posted_request fetcher_env (guide_net gzip_response) upper_ascii)
                  = Some gzip_response).
  { unfold guide_net. cbn [post_json]. reflexivity. }
  assert (Hurl : EPG_FETCHER_URL fetcher_env <> []) by done.
  assert (Hw : written_bytes EPG_PATH tr = Some [x3c; x74; x76; x2f; x3e]).
  { exact (encoded_answer_stored_decoded upper_ascii frame decode_frame fetcher_env
             (guide_net gzip_response) gzip_response [x3c; x74; x76; x2f; x3e]
             (guide_net_encodable _) Hurl (guide_net_ids _) Hpost Hce eq_refl). }
  split; [done|]. split; [by vm_compute|]. split; [done|].
  split; [|done]. rewrite Hw. discriminate.
Defined.

Lemma surrogate_playlist_unencodable :
  utf8_encodable
    (combined (fetch_playlists upper_ascii no_env (one_playlist US_URL surrogate_playlist)))
  = false.
Proof. by vm_compute. Qed.

(** Three runs that skip the dispatch stage: no endpoint in the
    environment; an endpoint, and no source fetched; no endpoint, and a
    playlist that line 48 cannot write. *)
Lemma dispatch_skipped_witness :
  env_EPG_FETCHER_URL no_env = None
  /\ written_bytes EPG_PATH
       (main upper_ascii frame decode_frame no_env (one_playlist US_URL spaced_playlist))
     = None
  /\ channel_ids (fetch_playlists upper_ascii fetcher_env dead_net) = ∅
  /\ written_bytes EPG_PATH (main upper_ascii frame decode_frame fetcher_env dead_net) = None
  /\ written_text PLAYLIST_PATH (main upper_ascii frame decode_frame fetcher_env dead_net)
     = Some (lit "#EXTM3U

")
  /\ written_text PLAYLIST_PATH
       (main upper_ascii frame decode_frame no_env (one_playlist US_URL surrogate_playlist))
     = Some [].
Proof.
  assert (Hids : channel_ids (fetch_playlists upper_ascii fetcher_env dead_net) = ∅) by done.
  destruct (dispatch_skipped upper_ascii frame decode_frame no_env
              (one_playlist US_URL spaced_playlist) (or_introl eq_refl))
    as (_ & _ & _ & Hb & _).
  destruct (dispatch_skipped upper_ascii frame decode_frame fetcher_env dead_net
              (or_intror (or_intror Hids)))
    as (_ & _ & _ & Hb' & Ht' & _).
  destruct (dispatch_skipped upper_ascii frame decode_frame no_env
              (one_playlist US_URL surrogate_playlist) (or_introl eq_refl))
    as (_ & _ & _ & _ & _ & Ha).
  split; [done|]. split; [done|]. split; [done|]. split; [done|].
  split; [exact (proj1 (Ht' eq_refl))|].
  exact (proj2 (Ha surrogate_playlist_unencodable)).
Defined.

(** C9, as stated, fails: the load of an index whose second element is a
    number is reported as failed, and the mapping is not empty: it holds
    the entry of the first element. *)
Lemma failed_index_load_keeps_entries :
  load_epg_channels broken_index_net
  = (<[KStr (lit "a.us") := {| site := JStr []; site_id := JStr [] |}]> ∅,
     [EGet EPG_CHANNELS_URL; EPrint MsgEpgChannelsFailed])
  /\ (load_epg_channels broken_index_net).1 <> ∅.
Proof.
  assert (E : load_epg_channels broken_index_net
              = (<[KStr (lit "a.us") := {| site := JStr []; site_id := JStr [] |}]> ∅,
                 [EGet EPG_CHANNELS_URL; EPrint MsgEpgChannelsFailed])).
  { unfold load_epg_channels, broken_index_net, broken_index.
    cbn [get_json iterate index_channels index_entry]. by entry_lookup. }
  split; [exact E|]. rewrite E. cbn [fst]. apply insert_non_empty.
Qed.

(** A run whose one playlist holds a lone surrogate: line 48 raises, the
    playlist file is left empty, and the run ends there, with neither
    catalogue asked for. *)
Example surrogate_run_aborts :
  let tr := main upper_ascii frame decode_frame no_env
              (one_playlist US_URL surrogate_playlist) in
  last tr = Some (EWriteFailed PLAYLIST_PATH)
  /\ written_text PLAYLIST_PATH tr = Some []
  /\ gets tr = (SOURCES (lit "us")).*2.
Proof. intros tr. split; [|split]; by vm_compute. Qed.

(** The index of two sites for one identifier: the last one is kept, the
    empty identifier is not. *)
Lemma epg_channels_of_index_witness :
  get_json index_net EPG_CHANNELS_URL = Some (JArr demo_index)
  /\ Forall index_object demo_index
  /\ exists m,
       (load_epg_channels index_net).1 = m
       /\ m !! KStr (lit "a.us")
          = Some {| site := JStr (lit "two.example"); site_id := JStr [] |}
       /\ m !! KStr [] = None.
Proof.
  assert (Hall : Forall index_object demo_index).
  { unfold demo_index. repeat constructor; eexists; (split; [reflexivity|]);
      intros v Hv Ht; revert Hv; entry_lookup; intros [= <-]; by eexists. }
  split; [done|]. split; [done|].
  destruct (epg_channels_of_index index_net demo_index eq_refl Hall) as (m & Hload & Hm).
  exists m. split; [by rewrite Hload|]. split.
  - apply Hm.
    exists 3%nat, (<[lit "xmltv_id" := JStr (lit "a.us")]>
                   (<[lit "site" := JStr (lit "two.example")]> ∅)), (JStr (lit "a.us")).
    split; [reflexivity|]. split; [by entry_lookup|]. split; [reflexivity|].
    split; [reflexivity|]. split; [by entry_lookup|].
    intros j d' v' Hj Hl. apply lookup_lt_Some in Hl. simpl in Hl. lia.
  - destruct (m !! KStr []) as [r|] eqn:E; [|done].
    apply Hm in E as (i & d & v & _ & _ & Ht & Hh & _). clear Hm Hload Hall.
    destruct v as [|b|z|s| |]; cbn [hashable] in Hh; try discriminate Hh.
    injection Hh as ->. discriminate Ht.
Defined.

(** The record of the scenario with the fields alt, net, US and an empty one
    in place of the dots. *)
Lemma registry_resolver_witness :
  parse_record (demo_record (lit "alt") (lit "net") (lit "US") (lit ""))
  = Some (lit "id1", {| name := lit "Demo, Channel"; lang := lit "en" |}).
Proof.
  assert (P : forall m, (comma ∉ m) -> (quote ∉ m) -> plain m).
  { intros m H1 H2. split; [done|]. apply Forall_forall. intros c Hc ->. done. }
  destruct registry_resolver as (_ & _ & _ & _ & _ & _ & _ & _ & Hdemo).
  apply Hdemo; apply P; apply (bool_decide_unpack _); by vm_compute.
Defined.

(** Outside the interface of the guide index: an element that is no object
    stops the loop, and what was stored before it stays in the mapping. *)
Example index_loop_keeps_stored_entries :
  index_channels [JObj (<[lit "xmltv_id" := JStr (lit "a.us")]> ∅); JInt 5] ∅
  = (<[KStr (lit "a.us") := {| site := JStr []; site_id := JStr [] |}]> ∅, false).
Proof. cbn [index_channels index_entry]. by entry_lookup. Qed.

(** * Further properties of the script *)

(** ** Step 1: what the loop keeps *)

Section Loop.
Variable upper : str -> str.
Variable env : environ.
Variable net : remote.

Lemma fetch_source_grows st src :
  combined st `prefix_of` combined (fetch_source upper env net st src)
  /\ channel_ids st ⊆ channel_ids (fetch_source upper env net st src).
Proof.
  split.
  - destruct src as [label url]. unfold fetch_source.
    destruct (get_text net url); cbn [combined]; [|done].
    rewrite <- app_assoc. by apply prefix_app_r.
  - rewrite channel_ids_fetch_source. apply union_subseteq_l.
Qed.

(** The document and the identifier set only grow along the loop, so the
    document of every run begins with the format header, and so does the
    playlist file whenever line 48 can write it; when the document cannot
    be encoded the write raises and the file is left empty. *)
Theorem playlist_only_grows gzip_compress decode_content srcs st :
  combined st `prefix_of` combined (foldl (fetch_source upper env net) st srcs)
  /\ channel_ids st ⊆ channel_ids (foldl (fetch_source upper env net) st srcs)
  /\ exists sections,
       combined (fetch_playlists upper env net)
       = lit "#EXTM3U" ++ [newline; newline] ++ sections
       /\ written_text PLAYLIST_PATH (main upper gzip_compress decode_content env net)
          = Some (if utf8_encodable (combined (fetch_playlists upper env net))
                  then lit "#EXTM3U" ++ [newline; newline] ++ sections
                  else []).
Proof.
  split; [|split].
  - revert st; induction srcs as [|src srcs IH]; intros st; cbn [foldl]; [done|].
    etrans; [apply (fetch_source_grows st src)|apply IH].
  - revert st; induction srcs as [|src srcs IH]; intros st; cbn [foldl]; [done|].
    etrans; [apply (fetch_source_grows st src)|apply IH].
  - exists (concat (map (section_of env net upper) (SOURCES (COUNTRY_CODE env)))).
    assert (E : combined (fetch_playlists upper env net)
                = lit "#EXTM3U" ++ [newline; newline]
                  ++ concat (map (section_of env net upper) (SOURCES (COUNTRY_CODE env)))).
    { unfold fetch_playlists. rewrite combined_foldl.
      cbn [combined initial]. by rewrite <- app_assoc. }
    split; [exact E|].
    destruct (utf8_encodable (combined (fetch_playlists upper env net))) eqn:Henc.
    + rewrite playlist_written by done. by rewrite E.
    + by rewrite playlist_emptied.
Qed.

Lemma total_channels_fetch_playlists :
  total_channels (totals (fetch_playlists upper env net))
  = sum_list ((fun src : str * str => recorded net src.2) <$> SOURCES (COUNTRY_CODE env)).
Proof.
  unfold fetch_playlists, SOURCES. cbn [foldl]. rewrite !totals_fetch_source.
  cbn [totals initial fmap list_fmap sum_list snd]. unfold total_channels.
  assert (Hcomm : forall (j1 j2 : str) (z1 z2 y : nat),
             (z1 + (z2 + y) = z2 + (z1 + y))%nat) by (intros; lia).
  rewrite map_fold_insert_L; [|by intros; apply Hcomm|by entry_lookup].
  rewrite map_fold_insert_L; [|by intros; apply Hcomm|by entry_lookup].
  rewrite map_fold_insert_L; [|by intros; apply Hcomm|by entry_lookup].
  rewrite map_fold_insert_L; [|by intros; apply Hcomm|by entry_lookup].
  rewrite map_fold_empty. unfold id. lia.
Qed.

(** The total the script prints is the sum of what each source recorded:
    its number of entries when fetched, 0 when not. *)
Theorem total_is_sum_of_sources :
  total_channels (totals (fetch_playlists upper env net))
  = sum_list ((fun src : str * str => recorded net src.2) <$> SOURCES (COUNTRY_CODE env)).
Proof. exact total_channels_fetch_playlists. Qed.

End Loop.

Lemma isspace_not_hash ws : Forall (fun c => isspace c = true) ws -> hash ∉ ws.
Proof.
  intros H Hin. rewrite Forall_forall in H. by specialize (H hash Hin).
Qed.

Lemma remove_all_marker_absent s : hash ∉ s -> remove_all EXTM3U s = s.
Proof.
  intros H. rewrite <- (app_nil_r s) at 1. rewrite remove_all_marker_skip by done.
  by rewrite remove_all_equation_1, app_nil_r.
Qed.

(** A source that holds nothing but whitespace, with or without the
    document marker in front, is still given its banner; its body is the
    blank line alone. *)
Theorem blank_source_has_empty_body upper env net ws :
  Forall (fun c => isspace c = true) ws ->
  body ws = [newline; newline]
  /\ body (EXTM3U ++ ws) = [newline; newline]
  /\ forall st label url,
       get_text net url = Some (EXTM3U ++ ws) ->
       combined (fetch_source upper env net st (label, url))
       = combined st ++ banner upper env label ++ [newline; newline].
Proof.
  intros Hws. pose proof (isspace_not_hash ws Hws) as Hh.
  assert (E1 : body ws = [newline; newline]).
  { unfold body. rewrite remove_all_marker_absent by done.
    unfold strip. by rewrite strip_by_all. }
  assert (E2 : body (EXTM3U ++ ws) = [newline; newline]).
  { unfold body. rewrite remove_all_marker_here. exact E1. }
  split; [done|]. split; [done|].
  intros st label url Hget. unfold fetch_source. rewrite Hget. cbn [combined].
  by rewrite E2, <- app_assoc.
Qed.

(** The source whose text is the marker and a line feed. *)
Lemma blank_source_has_empty_body_witness :
  Forall (fun c => isspace c = true) [newline]
  /\ body (lit "#EXTM3U" ++ [newline]) = [newline; newline].
Proof.
  assert (H : Forall (fun c => isspace c = true) [newline]) by by repeat constructor.
  split; [done|].
  exact (proj1 (proj2 (blank_source_has_empty_body upper_ascii no_env dead_net [newline] H))).
Defined.

Lemma last_rev_head {A} (l : list A) : last (rev l) = head l.
Proof. destruct l as [|x l]; [done|]. simpl. apply last_snoc. Qed.

Lemma strip_by_ends p v :
  (forall c, head (strip_by p v) = Some c -> p c = false)
  /\ (forall c, last (strip_by p v) = Some c -> p c = false).
Proof.
  unfold strip_by. split; intros c Hc.
  - destruct (lstrip_by p v) as [|d t] eqn:E; [done|].
    destruct (rstrip_by_prefix p (d :: t)) as [b [Eb _]].
    destruct (rstrip_by p (d :: t)) as [|e r]; [done|].
    simpl in Eb, Hc. simplify_eq. by eapply lstrip_by_head.
  - unfold rstrip_by in Hc. rewrite last_rev_head in Hc.
    destruct (lstrip_by p (rev (lstrip_by p v))) as [|d t] eqn:E; [done|].
    simpl in Hc. simplify_eq. by eapply lstrip_by_head.
Qed.

(** Whatever blank space a source begins or ends with, its body in the
    combined document is a text that neither begins nor ends with
    whitespace, followed by exactly one blank line. *)
Theorem body_normal_form content :
  exists b, body content = b ++ [newline; newline]
    /\ (forall c, head b = Some c -> isspace c = false)
    /\ (forall c, last b = Some c -> isspace c = false)
    /\ strip b = b.
Proof.
  exists (strip (remove_all EXTM3U content)). split; [done|].
  split; [apply strip_by_ends|]. split; [apply strip_by_ends|apply strip_by_idemp].
Qed.

(** When none of the four sources can be fetched the run still goes
    through: the playlist file holds the format header alone, no identifier
    is found, the total printed is 0, and nothing is sent to or written
    from the enrichment service. *)
Theorem nothing_fetched upper gzip_compress decode_content env net :
  (forall src, src ∈ SOURCES (COUNTRY_CODE env) -> get_text net src.2 = None) ->
  let tr := main upper gzip_compress decode_content env net in
  written_text PLAYLIST_PATH tr = Some (lit "#EXTM3U" ++ [newline; newline])
  /\ channel_ids (fetch_playlists upper env net) = ∅
  /\ total_channels (totals (fetch_playlists upper env net)) = 0%nat
  /\ Forall (fun e => dispatch_effect e = false) tr
  /\ written_bytes EPG_PATH tr = None
  /\ last tr = Some (EPrint MsgDone).
Proof.
  intros Hdead tr.
  assert (H1 : get_text net (IPTV_BASE ++ lit "/countries/" ++ COUNTRY_CODE env ++ lit ".m3u")
               = None) by (apply (Hdead (lit "country", _)); unfold SOURCES; by repeat constructor).
  assert (H2 : get_text net (IPTV_BASE ++ lit "/categories/news.m3u") = None)
    by (apply (Hdead (lit "news", _)); unfold SOURCES; by repeat constructor).
  assert (H3 : get_text net (IPTV_BASE ++ lit "/categories/movies.m3u") = None)
    by (apply (Hdead (lit "movies", _)); unfold SOURCES; by repeat constructor).
  assert (H4 : get_text net (IPTV_BASE ++ lit "/categories/sports.m3u") = None)
    by (apply (Hdead (lit "sports", _)); unfold SOURCES; by repeat constructor).
  assert (Hids : channel_ids (fetch_playlists upper env net) = ∅).
  { rewrite channel_ids_identifiers. unfold identifiers, tvg_values, fetched_contents, SOURCES.
    cbn [omap list_omap snd]. by rewrite H1, H2, H3, H4. }
  assert (Hcomb : combined (fetch_playlists upper env net) = EXTM3U ++ [newline; newline])
    by by apply combined_nothing_fetched.
  assert (Henc : utf8_encodable (combined (fetch_playlists upper env net)) = true)
    by by rewrite Hcomb.
  assert (Hquiet : Forall (fun e => dispatch_effect e = false) tr).
  { unfold tr. rewrite main_stages by done.
    repeat (apply Forall_app; split);
      auto using fetch_trace_quiet, load_channel_db_quiet, load_epg_channels_quiet;
      try by repeat constructor.
    unfold dispatch. destruct (EPG_FETCHER_URL env); [by repeat constructor|].
    rewrite bool_decide_eq_true_2 by done. by repeat constructor. }
  split.
  { unfold tr. rewrite playlist_written by done. by rewrite Hcomb. }
  split; [done|]. split.
  { rewrite total_channels_fetch_playlists. unfold SOURCES, recorded.
    cbn [fmap list_fmap snd]. by rewrite H1, H2, H3, H4. }
  split; [done|]. split; [by apply written_bytes_quiet|].
  unfold tr. rewrite main_stages by done. rewrite !app_assoc. apply last_snoc.
Qed.

(** A run on a network where every call fails. *)
Lemma nothing_fetched_witness :
  (forall src, src ∈ SOURCES (COUNTRY_CODE fetcher_env) -> get_text dead_net src.2 = None)
  /\ written_text PLAYLIST_PATH (main upper_ascii frame decode_frame fetcher_env dead_net)
     = Some (lit "#EXTM3U" ++ [newline; newline])
  /\ written_bytes EPG_PATH (main upper_ascii frame decode_frame fetcher_env dead_net) = None.
Proof.
  assert (H : forall src, src ∈ SOURCES (COUNTRY_CODE fetcher_env) ->
                get_text dead_net src.2 = None) by done.
  destruct (nothing_fetched upper_ascii frame decode_frame fetcher_env dead_net H)
    as (Ht & _ & _ & _ & Hb & _).
  split; [done|]. split; [exact Ht|exact Hb].
Defined.

(** ** Step 1: the scan for identifiers *)

(** The number of double quotes of a text. *)
Definition count_quotes (s : list char) : nat :=
  length (filter (fun c => c = quote) s).

Lemma span_unquoted_app v r :
  unquoted v -> span_unquoted (v ++ quote :: r) = (v, quote :: r).
Proof.
  induction 1 as [|c v Hc _ IH]; cbn [app span_unquoted].
  - by rewrite N.eqb_refl.
  - by rewrite (proj2 (N.eqb_neq c quote) Hc), IH.
Qed.

Lemma match_tvg_here v r :
  v <> [] -> unquoted v -> match_tvg (tvg_prefix ++ v ++ quote :: r) = Some (v, r).
Proof.
  intros Hne Hu. unfold match_tvg. rewrite strip_prefix_app, span_unquoted_app by done.
  by destruct v.
Qed.

Lemma finditer_tvg_skip c t : c <> 116 -> finditer_tvg (c :: t) = finditer_tvg t.
Proof.
  intros Hc. rewrite finditer_tvg_cons. unfold match_tvg.
  change tvg_prefix with (116 :: lit "vg-id=" ++ [quote]). cbn [strip_prefix app].
  assert (E : (116 =? c) = false) by (apply N.eqb_neq; congruence).
  by rewrite E.
Qed.

(** An attribute with a non-empty value is found where the scan stands,
    whatever comes after it, and the scan resumes behind its closing quote. *)
Theorem attribute_found_where_it_stands v post :
  v <> [] -> unquoted v ->
  finditer_tvg (tvg_prefix ++ v ++ quote :: post) = v :: finditer_tvg post.
Proof.
  intros Hne Hu. pose proof (match_tvg_here v post Hne Hu) as Hm.
  change tvg_prefix with (116 :: lit "vg-id=" ++ [quote]) in *. cbn [app] in *.
  by rewrite finditer_tvg_cons, Hm.
Qed.

(** Two attributes one after the other. *)
Lemma attribute_found_where_it_stands_witness :
  lit "a.us" <> [] /\ unquoted (lit "a.us")
  /\ finditer_tvg (tvg_prefix ++ lit "a.us" ++ quote :: tvg_prefix ++ lit "b.uk" ++ [quote])
     = [lit "a.us"; lit "b.uk"].
Proof.
  assert (Hne : lit "a.us" <> []) by done.
  assert (Hu : unquoted (lit "a.us")) by (apply (bool_decide_unpack _); by vm_compute).
  split; [done|]. split; [done|].
  by rewrite (attribute_found_where_it_stands (lit "a.us") _ Hne Hu).
Defined.

(** An attribute with an empty value gives no identifier: the scan goes on
    behind it as if it were not there. *)
Theorem empty_attribute_gives_nothing post :
  finditer_tvg (tvg_prefix ++ quote :: post) = finditer_tvg post.
Proof.
  assert (Hm : match_tvg (tvg_prefix ++ quote :: post) = None).
  { unfold match_tvg. rewrite strip_prefix_app. cbn [span_unquoted].
    by rewrite N.eqb_refl. }
  change (tvg_prefix ++ quote :: post)
    with (116 :: 118 :: 103 :: 45 :: 105 :: 100 :: 61 :: quote :: quote :: post) in *.
  rewrite finditer_tvg_cons.
  match goal with
  | |- context [match_tvg ?x] =>
      replace (match_tvg x) with (@None (str * str)) by (symmetry; exact Hm)
  end.
  by rewrite !finditer_tvg_skip by done.
Qed.

Lemma count_quotes_cons c t : (count_quotes t <= count_quotes (c :: t))%nat.
Proof. unfold count_quotes. rewrite filter_cons. case_decide; simpl; lia. Qed.

Lemma match_tvg_two_quotes s v r : match_tvg s = Some (v, r) -> (2 <= count_quotes s)%nat.
Proof.
  intros (-> & _ & _)%match_tvg_Some. unfold count_quotes, tvg_prefix.
  rewrite !filter_app, !length_app, (filter_cons _ quote r).
  rewrite decide_True by done. cbn [length].
  assert (H : length (filter (fun c => c = quote) [quote]) = 1%nat) by done.
  rewrite H. lia.
Qed.

(** A text with fewer than two double quotes holds no identifier: an
    attribute whose value is not closed is not one. *)
Theorem unclosed_attribute_gives_nothing s :
  (count_quotes s < 2)%nat -> finditer_tvg s = [].
Proof.
  induction s as [|c t IH]; intros Hq; [by rewrite finditer_tvg_equation_1|].
  rewrite finditer_tvg_cons.
  destruct (match_tvg (c :: t)) as [[v r]|] eqn:E.
  - apply match_tvg_two_quotes in E. lia.
  - apply IH. pose proof (count_quotes_cons c t). lia.
Qed.

(** An attribute that runs to the end of the text. *)
Lemma unclosed_attribute_gives_nothing_witness :
  (count_quotes (tvg_prefix ++ lit "a.us") < 2)%nat
  /\ finditer_tvg (tvg_prefix ++ lit "a.us") = [].
Proof.
  assert (H : (count_quotes (tvg_prefix ++ lit "a.us") < 2)%nat) by (vm_compute; lia).
  split; [done|]. exact (unclosed_attribute_gives_nothing _ H).
Defined.

(** ** Step 1: the identifier set *)

Lemma lstrip_by_Forall (P : char -> Prop) p s : Forall P s -> Forall P (lstrip_by p s).
Proof.
  induction 1 as [|c s Hc Hs IH]; cbn [lstrip_by]; [constructor|].
  destruct (p c); [done|by constructor].
Qed.

Lemma strip_by_Forall (P : char -> Prop) p s : Forall P s -> Forall P (strip_by p s).
Proof.
  intros H. unfold strip_by, rstrip_by.
  apply Forall_rev, lstrip_by_Forall, Forall_rev. by apply lstrip_by_Forall.
Qed.

(** An identifier of the set is never empty, holds no double quote, and
    neither begins nor ends with whitespace. *)
Theorem identifiers_are_clean upper env net x :
  x ∈ channel_ids (fetch_playlists upper env net) ->
  x <> [] /\ unquoted x
  /\ (forall c, head x = Some c -> isspace c = false)
  /\ (forall c, last x = Some c -> isspace c = false).
Proof.
  rewrite channel_ids_identifiers, elem_of_list_to_set. unfold identifiers.
  rewrite list_elem_of_filter, list_elem_of_fmap.
  intros (Hne & v & -> & Hv). split; [done|].
  unfold tvg_values in Hv. apply list_elem_of_bind in Hv as (content & Hv & _).
  apply finditer_tvg_occurs in Hv as (_ & Hu & _).
  split; [by apply strip_by_Forall|]. apply strip_by_ends.
Qed.

(** The identifier that the playlist with a leading space gives. *)
Lemma identifiers_are_clean_witness :
  lit "a" ∈ channel_ids (fetch_playlists upper_ascii no_env (one_playlist US_URL spaced_playlist))
  /\ unquoted (lit "a").
Proof.
  assert (H : lit "a" ∈ channel_ids (fetch_playlists upper_ascii no_env
                                      (one_playlist US_URL spaced_playlist))).
  { apply elem_of_elements. vm_compute. by left. }
  split; [done|].
  exact (proj1 (proj2 (identifiers_are_clean upper_ascii no_env _ _ H))).
Defined.

Lemma length_remove_dups (l : list str) : (length (remove_dups l) <= length l)%nat.
Proof.
  induction l as [|x l IH]; [done|]. cbn [remove_dups]. case_decide; simpl; lia.
Qed.

(** The number of unique identifiers the script prints is at most the
    number of [tvg-id] attributes found in the fetched sources. *)
Theorem unique_at_most_attributes upper env net :
  (size (channel_ids (fetch_playlists upper env net)) <= length (tvg_values env net))%nat.
Proof.
  rewrite channel_ids_identifiers.
  assert (E : list_to_set (identifiers env net)
              = (list_to_set (remove_dups (identifiers env net)) : gset str)).
  { apply set_eq. intros x. by rewrite !elem_of_list_to_set, elem_of_remove_dups. }
  rewrite E, size_list_to_set by apply NoDup_remove_dups.
  etrans; [apply length_remove_dups|]. unfold identifiers.
  etrans; [apply length_filter|]. by rewrite length_fmap.
Qed.

(** ** Step 2: more on the registry *)

Lemma split_no_sep sep s : sep ∉ s -> split sep s = [s].
Proof.
  induction s as [|c s IH]; intros Hs; [done|].
  apply not_elem_of_cons in Hs as [Hc Hs]. cbn [split]. rewrite (IH Hs).
  assert (E : (c =? sep) = false) by (apply N.eqb_neq; congruence).
  by rewrite E.
Qed.

Lemma size_foldl_store_opt `{Countable K} {A V : Type} (f : A -> option (K * V)) xs
    (m : gmap K V) :
  (size (foldl (store_opt f) m xs) <= size m + length xs)%nat.
Proof.
  revert m; induction xs as [|x xs IH]; intros m; cbn [foldl length]; [lia|].
  etrans; [apply IH|]. unfold store_opt. destruct (f x) as [[k v]|]; [|lia].
  rewrite map_size_insert. destruct (m !! k); simpl; lia.
Qed.

(** A registry that has its header line only, or nothing at all, gives the
    empty mapping; in general the mapping has at most one entry per line
    after the first. *)
Theorem registry_size text :
  (newline ∉ strip text -> parse_channel_db text = ∅)
  /\ (size (parse_channel_db text) <= length (split newline (strip text)) - 1)%nat.
Proof.
  split.
  - intros Hnl. unfold parse_channel_db, registry_lines. by rewrite split_no_sep.
  - unfold parse_channel_db, registry_lines.
    etrans; [apply (size_foldl_store_opt parse_record)|].
    rewrite map_size_empty, length_drop. lia.
Qed.

(** A line without any quote is cut at each of its commas, as [split]
    would. *)
Theorem unquoted_line_split_at_commas line :
  unquoted line -> re_split_csv line = split comma line.
Proof.
  induction 1 as [|c t Hc Ht IH]; [done|].
  rewrite re_split_csv_cons. cbn [split]. rewrite IH.
  assert (E : even_quotes t = true).
  { rewrite <- (app_nil_r t). by rewrite even_quotes_unquoted_app. }
  by rewrite E, andb_true_r.
Qed.

(** A plain record of three fields. *)
Lemma unquoted_line_split_at_commas_witness :
  unquoted (lit "a,,b") /\ re_split_csv (lit "a,,b") = [lit "a"; lit ""; lit "b"].
Proof.
  assert (H : unquoted (lit "a,,b")) by (apply (bool_decide_unpack _); by vm_compute).
  split; [done|]. by rewrite (unquoted_line_split_at_commas _ H).
Defined.

(** The number of commas of a line. *)
Definition count_commas (s : list char) : nat :=
  length (filter (fun c => c = comma) s).

Lemma length_re_split_csv s : (length (re_split_csv s) <= S (count_commas s))%nat.
Proof.
  unfold count_commas. induction s as [|c t IH]; [done|].
  rewrite re_split_csv_cons, filter_cons.
  destruct (c =? comma) eqn:E.
  - apply N.eqb_eq in E as ->. rewrite decide_True by done.
    destruct (even_quotes t); cbn [andb length].
    + lia.
    + pose proof (re_split_csv_nonempty t). destruct (re_split_csv t); [done|].
      cbn [length] in *. lia.
  - apply N.eqb_neq in E. rewrite decide_False by done. cbn [andb].
    pose proof (re_split_csv_nonempty t). destruct (re_split_csv t); [done|].
    cbn [length] in *. lia.
Qed.

(** A line with fewer than 6 commas cannot have 7 fields and is passed
    over, whatever its quotes. *)
Theorem short_record_dropped line :
  (count_commas line < 6)%nat -> parse_record line = None.
Proof.
  intros H. destruct (parse_record_cases line) as [Hshort _]. apply Hshort.
  pose proof (length_re_split_csv line). lia.
Qed.

(** A record of four fields. *)
Lemma short_record_dropped_witness :
  (count_commas (lit "id1,Demo,,en") < 6)%nat /\ parse_record (lit "id1,Demo,,en") = None.
Proof.
  assert (H : (count_commas (lit "id1,Demo,,en") < 6)%nat) by (vm_compute; lia).
  split; [done|]. exact (short_record_dropped _ H).
Defined.

(** In a line whose quotes do not pair up, the commas before the first
    quote are followed by an odd number of quotes: none of them cuts, and
    the fields they should separate come out as one. *)
Theorem open_quote_glues_fields a b :
  unquoted a -> even_quotes b = false ->
  exists g post, re_split_csv (a ++ comma :: b) = (a ++ comma :: g) :: post
                 /\ g :: post = re_split_csv b.
Proof.
  intros Ha Hb. induction Ha as [|c a Hc Ha (g & post & E & Eb)].
  - cbn [app]. rewrite re_split_csv_cons, Hb, andb_false_r.
    pose proof (re_split_csv_nonempty b). destruct (re_split_csv b) as [|g post]; [done|].
    by exists g, post.
  - exists g, post. split; [|done]. cbn [app]. rewrite re_split_csv_cons, E.
    assert (Ev : even_quotes (a ++ comma :: b) = false).
    { rewrite even_quotes_unquoted_app by done. cbn [even_quotes].
      by change (comma =? quote) with false. }
    by rewrite Ev, andb_false_r.
Qed.

(** Two fields and a quote that is never closed. *)
Lemma open_quote_glues_fields_witness :
  unquoted (lit "a,b") /\ even_quotes (quote :: lit "c,d") = false
  /\ re_split_csv (lit "a,b" ++ comma :: quote :: lit "c,d")
     = [lit "a,b," ++ quote :: lit "c"; lit "d"].
Proof.
  assert (Ha : unquoted (lit "a,b")) by (apply (bool_decide_unpack _); by vm_compute).
  assert (Hb : even_quotes (quote :: lit "c,d") = false) by done.
  split; [done|]. split; [done|].
  destruct (open_quote_glues_fields _ _ Ha Hb) as (g & post & -> & E).
  vm_compute in E. by simplify_eq.
Defined.

Lemma parse_record_Some line k c :
  parse_record line = Some (k, c) ->
  k = strip_quotes (strip (re_split_csv line !!! 0%nat)) /\ k <> []
  /\ name c = strip_quotes (strip (re_split_csv line !!! 1%nat))
  /\ lang c = strip (hd [] (split semicolon
                              (strip_quotes (strip (re_split_csv line !!! 6%nat))))).
Proof.
  unfold parse_record. destruct (7 <=? length (re_split_csv line))%nat; [|done].
  destruct (strip_quotes (strip (re_split_csv line !!! 0%nat))) as [|d t] eqn:E; [done|].
  by intros [= <- <-].
Qed.

(** Every entry of the registry mapping has a non-empty identifier that
    neither begins nor ends with a quote, a name that neither begins nor
    ends with a quote, and a language without semicolon and without
    surrounding whitespace. *)
Theorem channel_db_entries_clean text k c :
  parse_channel_db text !! k = Some c ->
  k <> [] /\ head k <> Some quote /\ last k <> Some quote
  /\ head (name c) <> Some quote /\ last (name c) <> Some quote
  /\ (semicolon ∉ lang c) /\ strip (lang c) = lang c.
Proof.
  intros (i & line & _ & Hp & _)%parse_channel_db_lookup.
  apply parse_record_Some in Hp as (-> & Hne & -> & ->).
  assert (Hq : forall s, head (strip_quotes s) <> Some quote
                         /\ last (strip_quotes s) <> Some quote).
  { intros s. destruct (strip_by_ends (N.eqb quote) s) as [Hh Hl].
    split; intros E; [specialize (Hh _ E)|specialize (Hl _ E)];
      by rewrite N.eqb_refl in *. }
  split; [done|]. split; [apply Hq|]. split; [apply Hq|].
  split; [apply Hq|]. split; [apply Hq|]. split; [|apply strip_by_idemp].
  match goal with |- _ ∉ strip (hd [] (split semicolon ?s)) =>
    destruct (hd_split semicolon s) as [Hsep _];
    assert (HF : Forall (fun c => c <> semicolon) (hd [] (split semicolon s)))
  end.
  { apply Forall_forall. by intros c' Hc ->. }
  apply (strip_by_Forall _ isspace) in HF. rewrite Forall_forall in HF.
  intros Hin. by apply (HF semicolon Hin).
Qed.

(** A registry of a header line and the record of the scenario. *)
Definition demo_registry : str :=
  lit "id,name,alt_names,network,owners,country,languages" ++ [newline]
  ++ demo_record (lit "alt") (lit "net") (lit "own") (lit "US") ++ [newline].

Lemma channel_db_entries_clean_witness :
  parse_channel_db demo_registry !! lit "id1"
  = Some {| name := lit "Demo, Channel"; lang := lit "en" |}
  /\ (semicolon ∉ lit "en").
Proof.
  assert (H : parse_channel_db demo_registry !! lit "id1"
              = Some {| name := lit "Demo, Channel"; lang := lit "en" |}) by by vm_compute.
  split; [done|].
  exact (proj1 (proj2 (proj2 (proj2 (proj2 (proj2
           (channel_db_entries_clean demo_registry _ _ H))))))).
Defined.

(** ** Step 3: more on the guide index *)

Lemma index_entry_binding ch o : index_entry ch = Some o -> binding ch = o.
Proof. unfold binding. by intros ->. Qed.

(** Whatever the index holds, the mapping is what the loop body stores
    along some prefix of it. *)
Lemma index_channels_prefix chs m :
  exists n, (n <= length chs)%nat
    /\ (index_channels chs m).1 = foldl (store_opt binding) m (take n chs).
Proof.
  revert m; induction chs as [|ch chs IH]; intros m.
  - by exists 0%nat.
  - cbn [index_channels]. destruct (index_entry ch) as [o|] eqn:E.
    + apply index_entry_binding in E.
      assert (Hstep : store_opt binding m ch
                      = match o with Some (k, v) => <[k := v]> m | None => m end).
      { unfold store_opt. by rewrite E. }
      destruct o as [[k v]|].
      * destruct (IH (<[k := v]> m)) as (n & Hn & ->). exists (S n).
        split; [simpl; lia|]. cbn [take foldl]. by rewrite Hstep.
      * destruct (IH m) as (n & Hn & ->). exists (S n).
        split; [simpl; lia|]. cbn [take foldl]. by rewrite Hstep.
    + exists 0%nat. split; [lia|done].
Qed.

(** An element the loop body cannot handle stops the loop: what the
    elements before it stored stays in the mapping, the elements after it
    are never looked at, and the load is reported as failed. *)
Theorem index_loop_stops_at_bad_element net good bad rest :
  Forall index_object good -> index_entry bad = None ->
  get_json net EPG_CHANNELS_URL = Some (JArr (good ++ bad :: rest)) ->
  load_epg_channels net
  = (foldl (store_opt binding) ∅ good, [EGet EPG_CHANNELS_URL; EPrint MsgEpgChannelsFailed]).
Proof.
  intros Hgood Hbad Hget. unfold load_epg_channels. rewrite Hget. cbn [iterate].
  assert (E : forall m, index_channels (good ++ bad :: rest) m
                        = (foldl (store_opt binding) m good, false)).
  { clear Hget. induction Hgood as [|ch good Hch _ IH]; intros m; cbn [app index_channels foldl].
    - by rewrite Hbad.
    - rewrite (index_object_binding ch Hch). unfold store_opt at 2.
      destruct (binding ch) as [[k r]|]; apply IH. }
  by rewrite E.
Qed.

Lemma index_loop_stops_at_bad_element_witness :
  let net := {| get_text := fun _ => None;
                get_json := fun _ => Some (JArr broken_index);
                post_json := fun _ _ => None |} in
  (load_epg_channels net).1 !! KStr (lit "a.us")
  = Some {| site := JStr []; site_id := JStr [] |}
  /\ (load_epg_channels net).1 !! KStr (lit "b.uk") = None.
Proof.
  intros net.
  assert (Hgood : Forall index_object [JObj (<[lit "xmltv_id" := JStr (lit "a.us")]> ∅)]).
  { repeat constructor. eexists. split; [reflexivity|].
    intros v Hv _. revert Hv. entry_lookup. intros [= <-]. by eexists. }
  rewrite (index_loop_stops_at_bad_element net _ (JInt 5)
             [JObj (<[lit "xmltv_id" := JStr (lit "b.uk")]> ∅)] Hgood eq_refl eq_refl).
  cbn [fst foldl]. unfold store_opt, binding, index_entry. entry_lookup.
  cbn [truthy hashable mjoin option_join lit]. split; [by entry_lookup|].
  rewrite lookup_insert_ne by (vm_compute; discriminate). apply lookup_empty.
Defined.

Lemma truthy_key v k :
  truthy v = true -> hashable v = Some k -> k <> KNone /\ k <> KStr [] /\ k <> KInt 0.
Proof.
  destruct v as [|b|z|s|l|d]; cbn [truthy hashable]; try done.
  - intros -> [= <-]. done.
  - intros Hz [= <-]. repeat split; try done. intros [= ->]. done.
  - intros Hs [= <-]. repeat split; try done. intros [= ->]. done.
Qed.

(** The guide mapping never has [None], the empty string or zero as a key,
    and never more entries than the index has elements, whatever the index
    holds and wherever the loop stops. *)
Theorem epg_channels_keys chs :
  (forall k r, (index_channels chs ∅).1 !! k = Some r ->
     k <> KNone /\ k <> KStr [] /\ k <> KInt 0)
  /\ (size (index_channels chs ∅).1 <= length chs)%nat.
Proof.
  destruct (index_channels_prefix chs ∅) as (n & Hn & ->). split.
  - intros k r (i & ch & _ & Hb & _)%lookup_foldl_store_opt.
    apply binding_Some in Hb as (d & v & _ & _ & Ht & Hh & _). by apply (truthy_key v).
  - etrans; [apply (size_foldl_store_opt binding)|].
    rewrite map_size_empty, length_take. lia.
Qed.

(** A decoded answer that is not an array (an object, a string, a number,
    a boolean, null) always leaves the guide mapping empty. *)
Theorem non_array_index_gives_nothing net v :
  get_json net EPG_CHANNELS_URL = Some v -> (forall chs, v <> JArr chs) ->
  (load_epg_channels net).1 = ∅.
Proof.
  intros Hget Hv. unfold load_epg_channels. rewrite Hget.
  destruct v as [|b|z|s|chs|d]; cbn [iterate]; try done.
  - pose proof (index_channels_of_strings (map (fun c => JStr [c]) s) ∅) as H.
    destruct (index_channels (map (fun c => JStr [c]) s) ∅) as [m completed].
    apply H. apply Forall_forall. intros ch Hch.
    apply list_elem_of_fmap in Hch as (c & -> & _). by eexists.
  - by destruct (Hv chs).
  - pose proof (index_channels_of_strings
                  (map (fun kv : str * json => JStr kv.1) (map_to_list d)) ∅) as H.
    destruct (index_channels (map (fun kv : str * json => JStr kv.1) (map_to_list d)) ∅)
      as [m completed].
    apply H. apply Forall_forall. intros ch Hch.
    apply list_elem_of_fmap in Hch as (kv & -> & _). by eexists.
Qed.

(** The service answers with a string. *)
Lemma non_array_index_gives_nothing_witness :
  let net := {| get_text := fun _ => None;
                get_json := fun _ => Some (JStr (lit "down for maintenance"));
                post_json := fun _ _ => None |} in
  (forall chs, JStr (lit "down for maintenance") <> JArr chs)
  /\ (load_epg_channels net).1 = ∅.
Proof.
  intros net.
  assert (H : forall chs, JStr (lit "down for maintenance") <> JArr chs) by done.
  split; [done|].
  exact (non_array_index_gives_nothing net _ eq_refl H).
Defined.

(** ** Step 4: more on the dispatch *)

(** The calls to the enrichment service, in order. *)
Definition posts (tr : list event) : list (str * request) :=
  omap (fun e => match e with EPost url req => Some (url, req) | _ => None end) tr.

Lemma posts_app tr1 tr2 : posts (tr1 ++ tr2) = posts tr1 ++ posts tr2.
Proof. apply omap_app. Qed.

Lemma posts_quiet tr : Forall (fun e => dispatch_effect e = false) tr -> posts tr = [].
Proof.
  induction 1 as [|e tr He _ IH]; [done|]. unfold posts in *. cbn [omap list_omap].
  destruct e; try done.
Qed.

Section Calls.
Variable upper : str -> str.
Variable gzip_compress : list byte -> list byte.
Variable decode_content : str -> list byte -> option (list byte).
Variable env : environ.
Variable net : remote.

Let tr : list event := main upper gzip_compress decode_content env net.

Lemma gets_load_channel_db : gets (load_channel_db net).2 = [CHANNELS_CSV_URL].
Proof. unfold load_channel_db. by destruct (get_text net CHANNELS_CSV_URL). Qed.

Lemma gets_load_epg_channels : gets (load_epg_channels net).2 = [EPG_CHANNELS_URL].
Proof.
  unfold load_epg_channels. destruct (get_json net EPG_CHANNELS_URL) as [v|]; [|done].
  destruct (iterate v) as [chs|]; [|done]. by destruct (index_channels chs ∅).
Qed.

Lemma gets_dispatch ids db epg :
  gets (dispatch gzip_compress decode_content env net ids db epg) = [].
Proof.
  unfold dispatch. destruct (EPG_FETCHER_URL env); [done|]. case_bool_decide; [done|].
  cbn [app gets omap list_omap].
  match goal with |- context [post_json ?n ?u ?r] => destruct (post_json n u r) as [resp|] end;
    [|done].
  by destruct (resp_content decode_content resp).
Qed.

(** What the dispatch stage does when the service cannot be reached or
    refuses, or when its answer cannot be decoded. *)
Lemma dispatch_failed :
  EPG_FETCHER_URL env <> [] ->
  channel_ids (fetch_playlists upper env net) <> ∅ ->
  post_json net (EPG_FETCHER_URL env) (posted_request env net upper) = None
  \/ (exists resp,
        post_json net (EPG_FETCHER_URL env) (posted_request env net upper) = Some resp
        /\ resp_content decode_content resp = None) ->
  dispatch gzip_compress decode_content env net (channel_ids (fetch_playlists upper env net))
    (load_channel_db net).1 (load_epg_channels net).1
  = [EPrint (MsgSending
               (length (req_channels (posted_request env net upper)))
               (matched (channel_ids (fetch_playlists upper env net))
                  (load_epg_channels net).1));
     EPost (EPG_FETCHER_URL env) (posted_request env net upper);
     EPrint MsgEpgFailed].
Proof.
  intros Hurl Hids Hpost. unfold dispatch.
  destruct (EPG_FETCHER_URL env) as [|c u] eqn:Eu; [done|].
  rewrite bool_decide_eq_false_2 by done.
  fold (posted_request env net upper).
  destruct Hpost as [->|(resp & -> & ->)]; done.
Qed.

(** Every run asks for the four playlists, each once and in the declared
    order, whatever fails.  A run in which line 48 has written the playlist
    goes on to ask for the registry and for the guide index, once each,
    calls the enrichment service at most once, with the payload built from
    the identifier set, and its last act is to print that it is done.  A
    run in which that write raises makes no further call and ends there. *)
Theorem each_remote_call_once :
  let written := utf8_encodable (combined (fetch_playlists upper env net)) in
  gets tr = (SOURCES (COUNTRY_CODE env)).*2
            ++ (if written then [CHANNELS_CSV_URL; EPG_CHANNELS_URL] else [])
  /\ (posts tr = [] \/ posts tr = [(EPG_FETCHER_URL env, posted_request env net upper)])
  /\ (written = false -> posts tr = [])
  /\ last tr = Some (if written then EPrint MsgDone else EWriteFailed PLAYLIST_PATH).
Proof.
  intros written. unfold written.
  destruct (utf8_encodable (combined (fetch_playlists upper env net))) eqn:Henc.
  - split; [|split; [|split]].
    + unfold tr. rewrite main_stages by done. rewrite !gets_app.
      rewrite all_sources_tried, gets_load_channel_db, gets_load_epg_channels,
        gets_dispatch.
      unfold gets. cbn [omap list_omap]. rewrite !app_nil_r. reflexivity.
    + unfold tr. rewrite main_stages by done. rewrite !posts_app.
      rewrite (posts_quiet _ (fetch_trace_quiet upper env net)),
        (posts_quiet _ (load_channel_db_quiet net)),
        (posts_quiet _ (load_epg_channels_quiet net)).
      cbn [posts omap list_omap app]. rewrite app_nil_r.
      unfold dispatch. destruct (EPG_FETCHER_URL env) as [|c u] eqn:Eu; [by left|].
      case_bool_decide; [by left|]. right.
      fold (posted_request env net upper). cbn [app posts omap list_omap].
      destruct (post_json net (c :: u) (posted_request env net upper)) as [resp|]; [|done].
      by destruct (resp_content decode_content resp).
    + done.
    + unfold tr. rewrite main_stages by done. rewrite !app_assoc. apply last_snoc.
  - assert (Hp : posts tr = []).
    { unfold tr. rewrite main_aborted by done. apply posts_quiet, aborted_quiet. }
    split; [|split; [|split]].
    + unfold tr. rewrite main_aborted by done. rewrite gets_app, all_sources_tried. done.
    + by left.
    + done.
    + unfold tr. rewrite main_aborted by done. apply last_snoc.
Qed.

(** In a run that has written its playlist, when the enrichment service
    cannot be reached or refuses, or sends a body that cannot be decoded,
    the run prints a warning, writes no guide data, and ends as usual with
    the playlist on disk. *)
Theorem dispatch_failure_is_local :
  utf8_encodable (combined (fetch_playlists upper env net)) = true ->
  EPG_FETCHER_URL env <> [] ->
  channel_ids (fetch_playlists upper env net) <> ∅ ->
  post_json net (EPG_FETCHER_URL env) (posted_request env net upper) = None
  \/ (exists resp,
        post_json net (EPG_FETCHER_URL env) (posted_request env net upper) = Some resp
        /\ resp_content decode_content resp = None) ->
  (exists sent, tr = sent ++ [EPost (EPG_FETCHER_URL env) (posted_request env net upper);
                             EPrint MsgEpgFailed; EPrint MsgDone])
  /\ written_bytes EPG_PATH tr = None
  /\ written_text PLAYLIST_PATH tr = Some (combined (fetch_playlists upper env net)).
Proof.
  intros Henc Hurl Hids Hpost.
  pose proof (dispatch_failed Hurl Hids Hpost) as Hd.
  split; [|split].
  - unfold tr. rewrite main_stages by done. rewrite Hd.
    exists ((fetch_trace (fetch_playlists upper env net)
             ++ [EWriteText PLAYLIST_PATH (combined (fetch_playlists upper env net));
                 EPrint (MsgPlaylist
                           (total_channels (totals (fetch_playlists upper env net)))
                           (size (channel_ids (fetch_playlists upper env net))))])
            ++ (load_channel_db net).2 ++ (load_epg_channels net).2
            ++ [EPrint (MsgSending
                          (length (req_channels (posted_request env net upper)))
                          (matched (channel_ids (fetch_playlists upper env net))
                             (load_epg_channels net).1))]).
    rewrite <- !app_assoc. reflexivity.
  - unfold tr. rewrite written_bytes_main, Henc, Hd. reflexivity.
  - by apply playlist_written.
Qed.

(** A guide-data file is on disk only when the service was asked and
    answered: its bytes are those kept from that answer. *)
Theorem guide_data_only_from_answer data :
  written_bytes EPG_PATH tr = Some data ->
  EPG_FETCHER_URL env <> []
  /\ channel_ids (fetch_playlists upper env net) <> ∅
  /\ exists resp content,
       post_json net (EPG_FETCHER_URL env) (posted_request env net upper) = Some resp
       /\ resp_content decode_content resp = Some content
       /\ data = epg_bytes gzip_compress resp content.
Proof.
  unfold tr. rewrite written_bytes_main.
  destruct (utf8_encodable (combined (fetch_playlists upper env net))); [|done].
  unfold dispatch.
  destruct (EPG_FETCHER_URL env) as [|c u] eqn:Eu; [done|].
  case_bool_decide as Hids; [done|]. fold (posted_request env net upper).
  destruct (post_json net (c :: u) (posted_request env net upper)) as [resp|] eqn:Ep;
    [|done].
  destruct (resp_content decode_content resp) as [content|] eqn:Ec; [|done].
  unfold written_bytes. cbn [app foldl]. rewrite bool_decide_eq_true_2 by done.
  intros [= <-]. split; [done|]. split; [done|]. by exists resp, content.
Qed.

End Calls.

Lemma one_playlist_ids :
  channel_ids (fetch_playlists upper_ascii fetcher_env (one_playlist US_URL spaced_playlist))
  <> ∅.
Proof. intros E. apply (f_equal elements) in E. vm_compute in E. discriminate. Qed.

Lemma one_playlist_encodable :
  utf8_encodable
    (combined (fetch_playlists upper_ascii fetcher_env (one_playlist US_URL spaced_playlist)))
  = true.
Proof. by vm_compute. Qed.

(** The run whose one playlist holds a lone surrogate: the four playlists
    are asked for, and nothing after them. *)
Lemma each_remote_call_once_witness :
  let tr := main upper_ascii frame decode_frame no_env
              (one_playlist US_URL surrogate_playlist) in
  gets tr = (SOURCES (lit "us")).*2
  /\ last tr = Some (EWriteFailed PLAYLIST_PATH).
Proof.
  intros tr.
  destruct (each_remote_call_once upper_ascii frame decode_frame no_env
              (one_playlist US_URL surrogate_playlist)) as (Hg & _ & _ & Hl).
  rewrite surrogate_playlist_unencodable in Hg, Hl.
  split; [|exact Hl]. unfold tr. rewrite Hg. apply app_nil_r.
Defined.

(** A run with one playlist and an enrichment service that is down. *)
Lemma dispatch_failure_is_local_witness :
  let net := one_playlist US_URL spaced_playlist in
  EPG_FETCHER_URL fetcher_env <> []
  /\ channel_ids (fetch_playlists upper_ascii fetcher_env net) <> ∅
  /\ written_bytes EPG_PATH (main upper_ascii frame decode_frame fetcher_env net) = None.
Proof.
  intros net.
  assert (Hurl : EPG_FETCHER_URL fetcher_env <> []) by done.
  assert (Hpost : post_json net (EPG_FETCHER_URL fetcher_env)
                    (posted_request fetcher_env net upper_ascii) = None).
  { unfold net, one_playlist. cbn [post_json]. reflexivity. }
  split; [done|]. split; [exact one_playlist_ids|].
  exact (proj1 (proj2 (dispatch_failure_is_local upper_ascii frame decode_frame fetcher_env
                         net one_playlist_encodable Hurl one_playlist_ids
                         (or_introl Hpost)))).
Defined.

(** The run in which the service answers plain XML. *)
Lemma guide_data_only_from_answer_witness :
  written_bytes EPG_PATH
    (main upper_ascii frame decode_frame fetcher_env (guide_net xml_response))
  = Some (frame [x3c; x74; x76; x2f; x3e])
  /\ EPG_FETCHER_URL fetcher_env <> [].
Proof.
  assert (H : written_bytes EPG_PATH
                (main upper_ascii frame decode_frame fetcher_env (guide_net xml_response))
              = Some (frame [x3c; x74; x76; x2f; x3e])) by by vm_compute.
  split; [done|].
  exact (proj1 (guide_data_only_from_answer upper_ascii frame decode_frame fetcher_env
                  (guide_net xml_response) _ H)).
Defined.

Lemma enrich_keys db epg cid key :
  is_Some (enrich db epg cid !! key) ->
  key ∈ [lit "xmltv_id"; lit "name"; lit "lang"; lit "site"; lit "site_id"].
Proof.
  unfold enrich. intros H.
  destruct (db !! cid) as [c|], (epg !! KStr cid) as [r|];
    repeat match type of H with
           | is_Some (<[_ := _]> _ !! _) =>
               apply lookup_insert_is_Some in H as [<-|[_ H]];
               [by repeat constructor|]
           end;
    rewrite <- insert_empty in H;
    apply lookup_insert_is_Some in H as [<-|[_ H]]; [by repeat constructor| |
      by repeat constructor| | by repeat constructor| | by repeat constructor|];
    rewrite lookup_empty in H; by destruct H.
Qed.

(** The payload lists every identifier of the set exactly once, in the
    order the set is visited; an entry has no other key than the five the
    script knows; the count of matched channels the script prints is the
    number of entries that carry a site, at most the number of entries. *)
Theorem payload_lists_each_identifier_once
    (ids : gset str) (db : gmap str channel) (epg : gmap pykey site_ref) :
  let enriched := enrich_all ids db epg in
  length enriched = size ids
  /\ (fun e : gmap str json => e !! lit "xmltv_id") <$> enriched
     = (fun cid => Some (JStr cid)) <$> elements ids
  /\ NoDup ((fun e : gmap str json => e !! lit "xmltv_id") <$> enriched)
  /\ (forall e key, e ∈ enriched -> is_Some (e !! key) ->
        key ∈ [lit "xmltv_id"; lit "name"; lit "lang"; lit "site"; lit "site_id"])
  /\ matched ids epg
     = length (filter (fun e : gmap str json => is_Some (e !! lit "site")) enriched)
  /\ (matched ids epg <= length enriched)%nat.
Proof.
  intros enriched. unfold enriched, enrich_all, matched.
  assert (Hx : (fun e : gmap str json => e !! lit "xmltv_id")
                 <$> map (enrich db epg) (elements ids)
               = (fun cid => Some (JStr cid)) <$> elements ids).
  { induction (elements ids) as [|cid l IH]; [done|]. cbn [map fmap list_fmap] in *.
    f_equal; [|exact IH]. apply enrich_lookup. }
  assert (Hm : length (filter (fun cid => is_Some (epg !! KStr cid)) (elements ids))
               = length (filter (fun e : gmap str json => is_Some (e !! lit "site"))
                           (map (enrich db epg) (elements ids)))).
  { clear Hx. induction (elements ids) as [|cid l IH]; [done|]. cbn [map].
    rewrite !filter_cons.
    destruct (enrich_lookup db epg cid) as (_ & _ & _ & Hs & _).
    destruct (decide (is_Some (epg !! KStr cid))) as [Hy|Hn].
    - rewrite decide_True by (rewrite Hs; by apply fmap_is_Some).
      cbn [length]. by rewrite IH.
    - rewrite decide_False by (rewrite Hs; by rewrite fmap_is_Some). exact IH. }
  split; [by rewrite length_map|]. split; [exact Hx|]. split.
  { rewrite Hx. apply NoDup_fmap_2; [|apply NoDup_elements]. by intros x y [= ->]. }
  split.
  { intros e key (cid & -> & _)%list_elem_of_fmap. apply enrich_keys. }
  split; [exact Hm|]. rewrite length_map. apply length_filter.
Qed.

(** ** Counting entries and reading the response headers *)

Lemma count_all_cons p c t :
  count_all p (c :: t) =
  match strip_prefix p (c :: t), p with
  | Some r, _ :: _ => S (count_all p r)
  | _, _ => count_all p t
  end.
Proof.
  rewrite count_all_equation_2.
  assert (H : forall o (e : strip_prefix p (c :: t) = o),
             count_all_unfold_clause_2 p c t (exist _ o e) =
             match o, p with
             | Some r, _ :: _ => S (count_all p r)
             | _, _ => count_all p t
             end).
  { intros [r|] e; simp count_all; [|done]. destruct p; by simp count_all. }
  apply H.
Qed.

Lemma length_filter_seq_shift (P : nat -> Prop) `{!forall i, Decision (P i)} start len :
  length (filter P (seq (S start) len)) = length (filter (fun i => P (S i)) (seq start len)).
Proof.
  revert start; induction len as [|len IH]; intros start; [done|].
  cbn [seq]. rewrite !filter_cons. destruct (decide (P (S start))); cbn [length];
    by rewrite IH.
Qed.

Lemma occurrences_cons p c t :
  occurrences p (c :: t)
  = ((if decide (p `prefix_of` c :: t) then 1 else 0) + occurrences p t)%nat.
Proof.
  unfold occurrences. cbn [length seq]. rewrite filter_cons. cbn [drop].
  pose proof (length_filter_seq_shift (fun i => p `prefix_of` drop i (c :: t)) 0 (length t))
    as E. cbn [drop] in E.
  destruct (decide (p `prefix_of` c :: t)); cbn [length]; by rewrite E.
Qed.

Lemma occurrences_skip h p a s :
  h ∉ a -> occurrences (h :: p) (a ++ s) = occurrences (h :: p) s.
Proof.
  induction a as [|c a IH]; intros Ha; [done|].
  apply not_elem_of_cons in Ha as [Hc Ha]. cbn [app]. rewrite occurrences_cons.
  rewrite decide_False; [by apply IH|].
  intros [r Hr]. by injection Hr as <-.
Qed.

(** The scan of [re.findall] for a marker that begins with a character it
    does not hold again, and so cannot overlap itself, counts every
    position at which the marker stands. *)
Lemma count_all_occurrences h p s :
  h ∉ p -> count_all (h :: p) s = occurrences (h :: p) s.
Proof.
  intros Hp. remember (length s) as n eqn:Hn. revert s Hn.
  induction n as [n IH] using lt_wf_ind. intros [|c t] Hn.
  - by rewrite count_all_equation_1.
  - rewrite count_all_cons, occurrences_cons.
    destruct (strip_prefix (h :: p) (c :: t)) as [r|] eqn:E.
    + pose proof (strip_prefix_length _ _ _ E) as Hlen.
      apply strip_prefix_Some in E. rewrite decide_True by by exists r.
      injection E as -> ->. rewrite occurrences_skip by done.
      cbn [length] in Hn, Hlen. rewrite (IH (length r)); [done|lia|done].
    + rewrite decide_False.
      * cbn [length] in Hn. by rewrite (IH (length t)); [|lia|].
      * intros [r Hr]. rewrite Hr, strip_prefix_app in E. discriminate.
Qed.

(** The count recorded for a source is the number of positions of its text
    at which the entry marker stands, whatever else the text holds (the
    document marker, other number signs, text that runs into a marker);
    a source that was not fetched records 0. *)
Theorem entries_counted upper env net :
  (forall s, count_all EXTINF s = occurrences EXTINF s)
  /\ (forall label url, (label, url) ∈ SOURCES (COUNTRY_CODE env) ->
        totals (fetch_playlists upper env net) !! label
        = Some (match get_text net url with
                | Some content => occurrences EXTINF content
                | None => 0%nat
                end)).
Proof.
  assert (Hc : forall s, count_all EXTINF s = occurrences EXTINF s).
  { intros s. change EXTINF with (hash :: lit "EXTINF").
    apply count_all_occurrences. apply (bool_decide_unpack _). by vm_compute. }
  split; [exact Hc|]. intros label url Hin.
  rewrite (totals_recorded upper env net label url Hin). unfold recorded.
  destruct (get_text net url); by rewrite ?Hc.
Qed.

(** A playlist of two entries, the second one right after a number sign:
    the first number sign of the text is that of the document marker. *)
Example entries_counted_ex :
  occurrences EXTINF (lit "#EXTM3U
#EXTINF:-1,A # one
http://a.example/1
##EXTINF:-1,B
http://a.example/2
") = 2%nat
  /\ count_all EXTINF (lit "#EXTM3U
#EXTINF:-1,A # one
http://a.example/1
##EXTINF:-1,B
http://a.example/2
") = 2%nat.
Proof. split; by vm_compute. Qed.

(** [p in s] holds exactly when [p] occurs in [s]. *)
Lemma contains_occurs p s : contains p s = true <-> exists a b, s = a ++ p ++ b.
Proof.
  split.
  - induction s as [|c s IH]; cbn [contains].
    + destruct (strip_prefix p []) as [r|] eqn:E; [|done].
      intros _. apply strip_prefix_Some in E. by exists [], r.
    + destruct (strip_prefix p (c :: s)) as [r|] eqn:E.
      * intros _. apply strip_prefix_Some in E. by exists [], r.
      * intros (a & b & ->)%IH. by exists (c :: a), b.
  - intros (a & b & ->). induction a as [|c a IH]; cbn [app].
    + destruct (p ++ b) as [|c t] eqn:E; cbn [contains]; rewrite <- E;
        by rewrite strip_prefix_app.
    + cbn [contains]. destruct (strip_prefix p (c :: a ++ p ++ b)); [done|exact IH].
Qed.

Section Stored.
Variable upper : str -> str.
Variable gzip_compress : list byte -> list byte.
Variable gzip_decompress : list byte -> option (list byte).
Variable decode_content : str -> list byte -> option (list byte).

(** The contract of the library: [gzip.decompress(gzip.compress(d)) == d]. *)
Hypothesis gzip_round_trip : forall data, gzip_decompress (gzip_compress data) = Some data.

(** The contract of requests: a body that comes without Content-Encoding
    is handed over as it was received. *)
Hypothesis decode_identity : forall body, decode_content [] body = Some body.

Variable env : environ.
Variable net : remote.

(** When the service answers and its body can be decoded, the guide file
    holds what requests handed over, unchanged exactly when the text gzip,
    in lower case, occurs somewhere in the answer's Content-Encoding or
    Content-Type (a missing header counting as the empty text), and
    compressed otherwise.  For an answer without Content-Encoding, what
    requests hands over is the body as received: the file then is that
    body when Content-Type names gzip, and unpacks to it when not. *)
Theorem guide_data_kept_or_compressed (resp : response) (content : list byte) :
  utf8_encodable (combined (fetch_playlists upper env net)) = true ->
  EPG_FETCHER_URL env <> [] ->
  channel_ids (fetch_playlists upper env net) <> ∅ ->
  post_json net (EPG_FETCHER_URL env) (posted_request env net upper) = Some resp ->
  resp_content decode_content resp = Some content ->
  let ce := default [] (resp_header resp (lit "Content-Encoding")) in
  let ct := default [] (resp_header resp (lit "Content-Type")) in
  let declared := (exists a b, ce = a ++ lit "gzip" ++ b)
                  \/ (exists a b, ct = a ++ lit "gzip" ++ b) in
  exists data,
    written_bytes EPG_PATH (main upper gzip_compress decode_content env net) = Some data
    /\ (declared -> data = content)
    /\ (~ declared -> data = gzip_compress content /\ gzip_decompress data = Some content)
    /\ (resp_header resp (lit "Content-Encoding") = None -> content = resp_body resp).
Proof.
  intros Henc Hurl Hids Hpost Hcontent ce ct declared.
  exists (epg_bytes gzip_compress resp content). split.
  { rewrite written_bytes_main, Henc. by apply dispatch_answered. }
  assert (Hd : declared_gzip resp = true <-> declared).
  { unfold declared_gzip, declared. by rewrite orb_true_iff, !contains_occurs. }
  unfold epg_bytes. split; [|split].
  - intros H. apply Hd in H. by rewrite H.
  - intros H. destruct (declared_gzip resp); [by destruct H; apply Hd|done].
  - intros Hce. unfold resp_content in Hcontent. rewrite Hce in Hcontent.
    cbn [default] in Hcontent. rewrite decode_identity in Hcontent. by injection Hcontent.
Qed.

End Stored.

(** A run in which the service answers plain XML, with no
    Content-Encoding: the file unpacks to the response body. *)
Lemma guide_data_kept_or_compressed_witness :
  exists data,
    written_bytes EPG_PATH
      (main upper_ascii frame decode_frame fetcher_env (guide_net xml_response))
    = Some data
    /\ unframe data = Some (resp_body xml_response).
Proof.
  assert (Hpost : post_json (guide_net xml_response) (EPG_FETCHER_URL fetcher_env)
                    (posted_request fetcher_env (guide_net xml_response) upper_ascii)
                  = Some xml_response).
  { unfold guide_net. cbn [post_json]. reflexivity. }
  assert (Hurl : EPG_FETCHER_URL fetcher_env <> []) by done.
  assert (Hid : forall body, decode_frame [] body = Some body) by done.
  assert (Hce : resp_header xml_response (lit "Content-Encoding") = None) by by vm_compute.
  assert (Hct : ~ ((exists a b, default [] (resp_header xml_response (lit "Content-Encoding"))
                                = a ++ lit "gzip" ++ b)
                   \/ (exists a b, default [] (resp_header xml_response (lit "Content-Type"))
                                   = a ++ lit "gzip" ++ b))).
  { rewrite <- !contains_occurs. by intros [H|H]; vm_compute in H. }
  destruct (guide_data_kept_or_compressed upper_ascii frame unframe decode_frame
              frame_round_trip Hid fetcher_env (guide_net xml_response)
              xml_response (resp_body xml_response)
              (guide_net_encodable _) Hurl (guide_net_ids _) Hpost eq_refl)
    as (data & Hw & _ & Hplain & _).
  exists data. split; [exact Hw|]. exact (proj2 (Hplain Hct)).
Defined.

(** * The installer *)

Import Installer.

Lemma lookup_set_all_notin (calls : list (str * str)) (s : gmap str str) (k : str) :
  k ∉ calls.*1 -> set_all calls s !! k = s !! k.
Proof.
  unfold set_all. revert s; induction calls as [|[k0 v0] calls IH]; intros s Hk; [done|].
  rewrite fmap_cons in Hk. apply not_elem_of_cons in Hk as [Hne Hk]. cbn [foldl fst snd].
  rewrite (IH _ Hk). by rewrite lookup_insert_ne.
Qed.

Lemma lookup_set_all_in (calls : list (str * str)) (s : gmap str str) (k v : str) :
  NoDup calls.*1 -> (k, v) ∈ calls -> set_all calls s !! k = Some v.
Proof.
  revert s; induction calls as [|[k0 v0] calls IH]; intros s Hnd Hin.
  - by apply elem_of_nil in Hin.
  - rewrite fmap_cons in Hnd. apply NoDup_cons in Hnd as [Hk0 Hnd].
    apply elem_of_cons in Hin as [[= -> ->]|Hin].
    + change (set_all ((k0, v0) :: calls) s) with (set_all calls (<[k0 := v0]> s)).
      rewrite lookup_set_all_notin by done. apply lookup_insert_eq.
    + change (set_all ((k0, v0) :: calls) s) with (set_all calls (<[k0 := v0]> s)).
      by apply IH.
Qed.

Lemma configure_set_all choice s :
  configure choice s = set_all (source_settings choice ++ COMMON_SETTINGS) s.
Proof. unfold configure, set_all. by rewrite foldl_app. Qed.

Lemma settings_NoDup choice : NoDup (source_settings choice ++ COMMON_SETTINGS).*1.
Proof.
  unfold source_settings. destruct (choice =? 0)%Z;
    apply (bool_decide_unpack _); by vm_compute.
Qed.

(** The path type written for a choice. *)
Definition path_type (choice : Z) : str := if (choice =? 0)%Z then lit "0" else lit "1".

Lemma configure_lookup_in choice s k v :
  (k, v) ∈ source_settings choice ++ COMMON_SETTINGS -> configure choice s !! k = Some v.
Proof.
  intros Hin. rewrite configure_set_all. apply lookup_set_all_in; [|done].
  apply settings_NoDup.
Qed.

Lemma configure_lookup_notin choice s k :
  k ∉ (source_settings choice ++ COMMON_SETTINGS).*1 -> configure choice s !! k = s !! k.
Proof. intros Hk. rewrite configure_set_all. by apply lookup_set_all_notin. Qed.

Ltac listed := unfold source_settings, LOCAL_SETTINGS, REMOTE_SETTINGS, COMMON_SETTINGS;
  cbn [app]; by repeat constructor.

Ltac unlisted := apply (bool_decide_unpack _); by vm_compute.

(** After a run that configures the add-on, the playlist and the guide
    have the same path type, 0 with the local paths for the first option and
    1 with the URLs for any other; the six common settings have their fixed
    values; the URLs are left as they were in local mode, the local paths in
    remote mode, and so is every setting the script does not name. *)
Theorem installer_settings h s :
  (0 <= picked h)%Z -> pvr h = inr s ->
  exists s', (run h).1 = inr s'
    /\ s' !! lit "m3uPathType" = Some (path_type (picked h))
    /\ s' !! lit "epgPathType" = Some (path_type (picked h))
    /\ (if (picked h =? 0)%Z
        then s' !! lit "m3uPath" = Some LOCAL_PLAYLIST /\ s' !! lit "epgPath" = Some LOCAL_EPG
             /\ s' !! lit "m3uUrl" = s !! lit "m3uUrl" /\ s' !! lit "epgUrl" = s !! lit "epgUrl"
        else s' !! lit "m3uUrl" = Some REMOTE_PLAYLIST /\ s' !! lit "epgUrl" = Some REMOTE_EPG
             /\ s' !! lit "m3uPath" = s !! lit "m3uPath"
             /\ s' !! lit "epgPath" = s !! lit "epgPath")
    /\ (forall k v, (k, v) ∈ COMMON_SETTINGS -> s' !! k = Some v)
    /\ (forall k, k ∉ (source_settings (picked h) ++ COMMON_SETTINGS).*1 ->
          s' !! k = s !! k).
Proof.
  intros Hpick Hpvr. exists (configure (picked h) s). split.
  { unfold run. rewrite (proj2 (Z.ltb_ge _ _) Hpick), Hpvr. done. }
  unfold path_type. destruct (picked h =? 0)%Z eqn:E.
  - split; [apply configure_lookup_in; unfold source_settings; rewrite E; listed|].
    split; [apply configure_lookup_in; unfold source_settings; rewrite E; listed|].
    split.
    { split; [apply configure_lookup_in; unfold source_settings; rewrite E; listed|].
      split; [apply configure_lookup_in; unfold source_settings; rewrite E; listed|].
      split; apply configure_lookup_notin; unfold source_settings; rewrite E; unlisted. }
    split; [|apply configure_lookup_notin].
    intros k v Hin. apply configure_lookup_in. apply elem_of_app. by right.
  - split; [apply configure_lookup_in; unfold source_settings; rewrite E; listed|].
    split; [apply configure_lookup_in; unfold source_settings; rewrite E; listed|].
    split.
    { split; [apply configure_lookup_in; unfold source_settings; rewrite E; listed|].
      split; [apply configure_lookup_in; unfold source_settings; rewrite E; listed|].
      split; apply configure_lookup_notin; unfold source_settings; rewrite E; unlisted. }
    split; [|apply configure_lookup_notin].
    intros k v Hin. apply configure_lookup_in. apply elem_of_app. by right.
Qed.

(** The second option picked on an add-on without settings. *)
Lemma installer_settings_witness :
  let h := {| picked := 1; pvr := inr ∅ |} in
  (0 <= picked h)%Z /\ pvr h = inr ∅
  /\ exists s', (run h).1 = inr s' /\ s' !! lit "m3uUrl" = Some REMOTE_PLAYLIST
       /\ s' !! lit "m3uPath" = None.
Proof.
  intros h.
  assert (Hp : (0 <= picked h)%Z) by done.
  destruct (installer_settings h ∅ Hp eq_refl) as (s' & Hrun & _ & _ & Hmode & _).
  split; [done|]. split; [done|]. exists s'. split; [done|].
  cbn [picked h] in Hmode. change (1 =? 0)%Z with false in Hmode.
  destruct Hmode as (Hurl & _ & Hpath & _). split; [done|]. by rewrite Hpath.
Defined.

Lemma set_all_union (calls : list (str * str)) (s : gmap str str) :
  set_all calls s = list_to_map (reverse calls) ∪ s.
Proof.
  unfold set_all. revert s; induction calls as [|[k v] calls IH]; intros s; cbn [foldl fst snd].
  - change (list_to_map (reverse [])) with (∅ : gmap str str).
    by rewrite (left_id_L ∅ (∪)).
  - rewrite IH, reverse_cons, list_to_map_app. cbn [list_to_map foldr].
    rewrite <- (assoc_L (∪)). f_equal.
    change (uncurry insert (k, v) ∅ : gmap str str) with (<[k := v]> (∅ : gmap str str)).
    by rewrite insert_union_singleton_l, insert_empty.
Qed.

(** Running the installer again with the same pick changes nothing more:
    the add-on is left as the first run left it. *)
Theorem installer_idempotent h :
  (run {| picked := picked h; pvr := (run h).1 |}).1 = (run h).1.
Proof.
  unfold run. cbn [picked pvr]. destruct (picked h <? 0)%Z eqn:E; cbn [fst].
  { done. }
  destruct (pvr h) as [e|s]; cbn [fst]; [done|]. f_equal.
  rewrite !configure_set_all, !set_all_union.
  by rewrite (assoc_L (∪)), (idemp_L (∪)).
Qed.

(** The last pick decides the path type.  After the first option and then
    another one the add-on reads the URLs, and the local paths written by
    the first run are still among its settings. *)
Theorem installer_switch c1 c2 s :
  let s2 := configure c2 (configure c1 s) in
  s2 !! lit "m3uPathType" = Some (path_type c2)
  /\ s2 !! lit "epgPathType" = Some (path_type c2)
  /\ ((c1 =? 0)%Z = true -> (c2 =? 0)%Z = false ->
      s2 !! lit "m3uUrl" = Some REMOTE_PLAYLIST /\ s2 !! lit "epgUrl" = Some REMOTE_EPG
      /\ s2 !! lit "m3uPath" = Some LOCAL_PLAYLIST /\ s2 !! lit "epgPath" = Some LOCAL_EPG).
Proof.
  intros s2. unfold s2, path_type. split; [|split].
  - apply configure_lookup_in. unfold source_settings. destruct (c2 =? 0)%Z; listed.
  - apply configure_lookup_in. unfold source_settings. destruct (c2 =? 0)%Z; listed.
  - intros E1 E2.
    split; [apply configure_lookup_in; unfold source_settings; rewrite E2; listed|].
    split; [apply configure_lookup_in; unfold source_settings; rewrite E2; listed|].
    split.
    + rewrite configure_lookup_notin by (unfold source_settings; rewrite E2; unlisted).
      apply configure_lookup_in; unfold source_settings; rewrite E1; listed.
    + rewrite configure_lookup_notin by (unfold source_settings; rewrite E2; unlisted).
      apply configure_lookup_in; unfold source_settings; rewrite E1; listed.
Qed.

(** A dismissed dialog leaves the add-on alone and shows nothing more.
    When the add-on cannot be found its settings stay out of reach, and the
    text of the exception ends both the error dialog and the error line of
    the log; a completion dialog and an info line appear only when the
    add-on was configured. *)
Theorem installer_reports h :
  ((picked h < 0)%Z -> run h = (pvr h, [SELECT]))
  /\ ((0 <= picked h)%Z ->
      exists heading message line level,
        (run h).2 = [SELECT; Ok heading message; Log line level]
        /\ (level = LOGINFO <-> exists s, pvr h = inr s)
        /\ (forall e, pvr h = inl e ->
              (run h).1 = inl e /\ heading = lit "myTV Error" /\ level = LOGERROR
              /\ e `suffix_of` message /\ e `suffix_of` line)).
Proof.
  unfold run. split.
  - intros Hneg. by rewrite (proj2 (Z.ltb_lt _ _) Hneg).
  - intros Hpick. rewrite (proj2 (Z.ltb_ge _ _) Hpick).
    destruct (pvr h) as [e|s]; cbn [fst snd].
    + do 4 eexists. split; [reflexivity|]. split.
      * split; [done|]. by intros [s [=]].
      * intros e' [= <-]. split; [done|]. split; [done|]. split; [done|].
        split; [unfold error_message|]; rewrite ?app_assoc; by apply suffix_app_r.
    + do 4 eexists. split; [reflexivity|]. split; [|done].
      split; [by exists s|done].
Qed.
